(** * clujo: task graphs, tasks, the shared context and the graph runner

    A shallow embedding of [src/task-graph.ts] (TaskGraph, TaskGraphBuilder,
    TaskGraphRunner), of the [Task] class ([_task.ts], shipped compiled in
    [src/clujo.ts], lines 264-353) and of the [Context] class
    ([_context.ts]), followed by the properties stated about them.

    Conventions.
    - A JS [Map] is an association list in insertion order ([Map_set]
      replaces in place or appends, as [Map.prototype.set] does); a real
      [Map] has unique keys, which the statements assume as [NoDup] of the
      keys where it matters.
    - A JS [Set] whose iteration order is observable ([readyTasks]) is a
      duplicate-free list; the other sets are [gset string].
    - The context object is a [gmap string jsval]. JS numbers are the
      integers and NaN. Property names and task ids are only compared, and
      are kept as [string].
    - A thrown exception is a value of type [Error] returned next to the
      state the call leaves behind: a JS exception does not undo the
      mutations made before it.
    - User code (a task's [execute], its [errorHandler], a seed factory) is a
      function to an [outcome]: it returns a value or throws. A thrown value
      is kept with what converting it to a string does, since [Task.run]
      puts it in its messages.
    - An [async] function is the state machine of its [await]s: [run] of
      [Task] and [run] of [TaskGraphRunner] are given by what they do between
      two suspensions, and a run of the graph is any sequence of the events
      that resume them. [Task.run] is also given in one piece, and the two
      agree ([drive_start_run]). *)

From stdpp Require Import gmap strings list fin_maps pretty.
From Stdlib Require Import ZArith Lia.

Set Warnings "-register-all,-clear-no-such-hyp".

Open Scope string_scope.
Open Scope list_scope.
Open Scope Z_scope.

(** ** JavaScript values *)

(** A string value is the list of its UTF-16 code units, which is what
    indexing and spreading a string go by. *)
Inductive jsval : Type :=
  | JUndefined
  | JNull
  | JBool (b : bool)
  | JNum (n : Z)
  | JNaN
  | JStr (units : list N)
  | JObj (props : list (string * jsval)).

(** [if (v)]: the falsy values are undefined, null, false, 0, NaN and the
    empty string. *)
Definition truthy (v : jsval) : bool :=
  match v with
  | JUndefined | JNull | JNaN => false
  | JBool b => b
  | JNum n => negb (n =? 0)
  | JStr units => match units with [] => false | _ :: _ => true end
  | JObj _ => true
  end.

(** A value that user code throws: an [Error] instance with its message; a
    value that is no [Error] and that [String(err)] and a template literal
    convert to a string, kept by that string; or a value that a template
    literal cannot convert to a string, kept by what the conversion throws:
    a TypeError for a Symbol and for an object without [toString] and
    [valueOf] (one made by [Object.create(null)]), or whatever the object's
    own [toString] throws. Converting a value does the same every time. *)
Inductive thrown : Type :=
  | ErrorObj (message : string)
  | NonError (rendering : string)
  | Unprintable (conversion : thrown).

Inductive outcome : Type :=
  | Returned (v : jsval)
  | Thrown (e : thrown).

(** [`${err}`] inside a template literal: what the conversion to a string
    throws, if it throws. *)
Definition template_throws (err : thrown) : option thrown :=
  match err with
  | Unprintable conversion => Some conversion
  | _ => None
  end.

(** [err instanceof Error ? err : new Error(`Non error throw: ${String(err)}`)].
    [Task.run] reaches this line (320) only with a value that the template
    literal of line 319 has converted; the last case is there for
    totality. *)
Definition to_error (err : thrown) : thrown :=
  match err with
  | ErrorObj m => ErrorObj m
  | NonError r => ErrorObj ("Non error throw: " +:+ r)
  | Unprintable conversion => Unprintable conversion
  end.

(** The context object handed to tasks. *)
Abbreviation Ctx := (gmap string jsval).

(** The errors that the library throws, by call site, and the exception
    of a seed factory, which [run] lets through. *)
Inductive Error : Type :=
  | DependenciesNotAnObject
  | TaskAlreadyExists (taskId : string)
  | InvalidMaxRetries
  | InvalidRetryDelayMs
  | DependencyNotFound (depId taskId : string)
  | SelfDependency
  | NoTasksAdded
  | CircularDependency (taskId : string)
  | TaskNotFound (taskId : string)
  | NoTasksToRun
  | SeedFactoryThrew (e : thrown).

(** What a call leaves: a result, a thrown error, or (for the definitions
    that recurse on fuel) the fuel exhausted. *)
Inductive res (A : Type) : Type :=
  | Ok (a : A)
  | Throws (e : Error)
  | OutOfFuel.
Arguments Ok {A} a.
Arguments Throws {A} e.
Arguments OutOfFuel {A}.

(** ** JS Map as an insertion-ordered association list *)

Section JsMap.
Context {V : Type}.

Fixpoint Map_get (m : list (string * V)) (k : string) : option V :=
  match m with
  | [] => None
  | (k', v) :: m' => if decide (k' = k) then Some v else Map_get m' k
  end.

Definition Map_has (m : list (string * V)) (k : string) : bool :=
  match Map_get m k with Some _ => true | None => false end.

Fixpoint Map_set (m : list (string * V)) (k : string) (v : V) : list (string * V) :=
  match m with
  | [] => [(k, v)]
  | (k', v') :: m' =>
      if decide (k' = k) then (k', v) :: m' else (k', v') :: Map_set m' k v
  end.

Definition Map_keys (m : list (string * V)) : list string := fst <$> m.

Definition Map_size (m : list (string * V)) : nat := length m.
End JsMap.

(** ** Context ([_context.ts]) *)

Module Context.

(** The object, and the promise chain [updateQueue]: the merges chained on
    it whose callbacks have not run yet, oldest first, and how many have
    run. The promise that the k-th call of [update] returned (k from 0) is
    resolved once more than k callbacks have run. *)
Record t : Type := {
  object : Ctx;
  queued : list Ctx;
  applied : nat
}.

(** [{ ...v }] for the values a seed can be: the own enumerable properties
    of an object, the code units of a string under their indices, nothing
    for a number or a boolean. *)
Definition spread (v : jsval) : jsval :=
  match v with
  | JObj props => JObj props
  | JStr units => JObj (imap (fun i u => (pretty i, JStr [u])) units)
  | _ => JObj []
  end.

(** [reset(initialObject)] *)
Definition reset (this : t) (initialObject : jsval) : t :=
  {| object := if truthy initialObject
               then {[ "initial" := spread initialObject ]}
               else {[ "initial" := JUndefined ]};
     queued := queued this; applied := applied this |}.

(** [new Context(initialObject)] *)
Definition new (initialObject : jsval) : t :=
  reset {| object := ∅; queued := []; applied := 0%nat |} initialObject.

(** [get value()] *)
Definition value (this : t) : Ctx := object this.

(** [{ ...this.object, ...updateValue }]: the later spread wins. *)
Definition merge (obj updateValue : Ctx) : Ctx := updateValue ∪ obj.

(** [update(updateValue)]: chains the merge and returns the new tail of the
    chain, named by its position. *)
Definition update (this : t) (updateValue : Ctx) : t * nat :=
  ({| object := object this; queued := queued this ++ [updateValue];
      applied := applied this |},
   (applied this + length (queued this))%nat).

(** The event loop runs the oldest chained callback (line 43). *)
Definition run_callback (this : t) : option t :=
  match queued this with
  | [] => None
  | u :: rest =>
      Some {| object := merge (object this) u; queued := rest;
              applied := Datatypes.S (applied this) |}
  end.

(** Whether the promise returned by the call numbered [ticket] is resolved. *)
Definition resolved (this : t) (ticket : nat) : bool :=
  bool_decide (ticket < applied this)%nat.

End Context.

(** ** Task ([_task.ts]) *)

(** The status strings "pending", "running", "completed", "failed". *)
Inductive Status : Type := Pending | Running | Completed | Failed.

#[global] Instance Status_eq_dec : EqDecision Status.
Proof. solve_decision. Defined.

Record RetryPolicy : Type := { maxRetries : Z; retryDelayMs : Z }.

(** [execute({deps, ctx})]; the [nat] is the index of the call within one
    [Task.run], so that an operation may fail on some attempts only. *)
Definition ExecuteFn : Type := jsval -> Ctx -> nat -> outcome.
Definition ErrorHandlerFn : Type := thrown -> jsval -> Ctx -> outcome.

Record TaskOptions : Type := {
  id : string;
  execute : ExecuteFn;
  dependencies : option (list string);
  retryPolicy : option RetryPolicy;
  errorHandler : option ErrorHandlerFn
}.

(** What one run of a task does, as seen from outside. The console messages
    are kept by call site and interpolated values. *)
Inductive LogMessage : Type :=
  | MsgTaskFailedAfter (attempts : nat) (err : thrown)
  | MsgRetrying (attempt : nat) (maxRetries : Z) (err : thrown)
  | MsgErrorInTask (taskId : string) (err : thrown)
  | MsgErrorInHandler (taskId : string) (error2 : thrown).

Inductive Effect : Type :=
  | EStatus (s : Status)
  | EExecute (deps : jsval) (ctx : Ctx) (attempt : nat)
  | EErrorHandler (error : thrown) (deps : jsval) (ctx : Ctx)
  | EConsoleError (m : LogMessage)
  | ESleep (ms : Z).

Module Task.

Record t : Type := {
  options : TaskOptions;
  _dependencies : list string;
  _retryPolicy : RetryPolicy;
  _status : Status
}.

(** [_validateRetryPolicy]; the [typeof] and [Number.isInteger] tests hold of
    every [Z]. *)
Definition _validateRetryPolicy (p : RetryPolicy) : option Error :=
  if maxRetries p <? 0 then Some InvalidMaxRetries
  else if retryDelayMs p <? 0 then Some InvalidRetryDelayMs
  else None.

(** [new Task(options)] *)
Definition new (o : TaskOptions) : res t :=
  match retryPolicy o with
  | Some p =>
      match _validateRetryPolicy p with
      | Some e => Throws e
      | None => Ok {| options := o; _dependencies := []; _retryPolicy := p;
                      _status := Pending |}
      end
  | None => Ok {| options := o; _dependencies := [];
                  _retryPolicy := {| maxRetries := 0; retryDelayMs := 0 |};
                  _status := Pending |}
  end.

(** [addDependency(taskId)] *)
Definition addDependency (this : t) (taskId : string) : res t :=
  if decide (taskId = id (options this)) then Throws SelfDependency
  else Ok {| options := options this;
             _dependencies := _dependencies this ++ [taskId];
             _retryPolicy := _retryPolicy this;
             _status := _status this |}.

Definition set_status (s : Status) (this : t) : t :=
  {| options := options this; _dependencies := _dependencies this;
     _retryPolicy := _retryPolicy this; _status := s |}.

(** The catch block of [run] once the attempts are used up (lines 319-328),
    up to the handler's call if there is one, for a thrown value that the
    messages can hold. *)
Definition exhausted_prefix (this : t) (deps : jsval) (ctx : Ctx)
    (attempt : nat) (err : thrown) : list Effect :=
  EConsoleError (MsgTaskFailedAfter (attempt + 1) err) ::
  match errorHandler (options this) with
  | Some _ => [EErrorHandler (to_error err) deps ctx]
  | None => [EConsoleError (MsgErrorInTask (id (options this)) err)]
  end.

(** What follows the awaited handler: its own throw is caught and logged
    (line 325), unless the message cannot be built. *)
Definition handler_suffix (this : t) (deps : jsval) (ctx : Ctx)
    (error : thrown) : list Effect :=
  match errorHandler (options this) with
  | Some h =>
      match h error deps ctx with
      | Thrown error2 =>
          match template_throws error2 with
          | None => [EConsoleError (MsgErrorInHandler (id (options this)) error2)]
          | Some _ => []
          end
      | Returned _ => []
      end
  | None => []
  end.

(** Line 325 is inside the inner [catch]: when the handler throws a value
    that [`${error2}`] cannot convert, what the conversion throws leaves the
    inner and the outer [catch] blocks, and [run] with it. *)
Definition handler_rethrows (this : t) (deps : jsval) (ctx : Ctx)
    (error : thrown) : option thrown :=
  match errorHandler (options this) with
  | Some h =>
      match h error deps ctx with
      | Thrown error2 => template_throws error2
      | Returned _ => None
      end
  | None => None
  end.

(** [run(deps, ctx)] (lines 310-335) when nothing else runs in between: the
    effects in order, the task it leaves and how its promise settles. The
    [for] loop makes [maxRetries + 1] iterations at most; [iterations] counts
    the ones left and [attempt] is the loop variable. Both branches of the
    [catch] block begin with a message that holds [`${err}`] (lines 319 and
    330): when that conversion throws, nothing of the block has happened
    and [run] rejects with what the conversion threw. *)
Fixpoint run_loop (iterations attempt : nat) (this : t) (deps : jsval)
    (ctx : Ctx) : list Effect * t * outcome :=
  match iterations with
  | O => ([], this, Thrown (ErrorObj "Unexpected end of run method"))
  | S iterations' =>
      let this1 := set_status Running this in
      match execute (options this) deps ctx attempt with
      | Returned result =>
          ([EStatus Running; EExecute deps ctx attempt; EStatus Completed],
           set_status Completed this1, Returned result)
      | Thrown err =>
          match template_throws err with
          | Some conversion =>
              ([EStatus Running; EExecute deps ctx attempt], this1,
               Thrown conversion)
          | None =>
              if decide (Z.of_nat attempt = maxRetries (_retryPolicy this)) then
                match handler_rethrows this deps ctx (to_error err) with
                | Some conversion =>
                    ([EStatus Running; EExecute deps ctx attempt]
                       ++ exhausted_prefix this deps ctx attempt err
                       ++ handler_suffix this deps ctx (to_error err),
                     this1, Thrown conversion)
                | None =>
                    ([EStatus Running; EExecute deps ctx attempt]
                       ++ exhausted_prefix this deps ctx attempt err
                       ++ handler_suffix this deps ctx (to_error err)
                       ++ [EStatus Failed],
                     set_status Failed this1, Thrown (to_error err))
                end
              else
                let '(effects, this', o) :=
                  run_loop iterations' (S attempt) this1 deps ctx in
                ([EStatus Running; EExecute deps ctx attempt;
                  EConsoleError
                    (MsgRetrying (attempt + 1) (maxRetries (_retryPolicy this))
                       err);
                  ESleep (retryDelayMs (_retryPolicy this))] ++ effects,
                 this', o)
          end
      end
  end.

Definition run (this : t) (deps : jsval) (ctx : Ctx)
    : list Effect * t * outcome :=
  run_loop (Z.to_nat (maxRetries (_retryPolicy this) + 1)) 0 this deps ctx.

(** The same method as the event loop runs it: [run] is suspended at one of
    its three [await]s, or its promise has settled. *)
Inductive Pc : Type :=
  | AtExecute (attempt : nat)
  | AtSleep (attempt : nat)
  | AtErrorHandler (error : thrown)
  | Settled (o : outcome).

(** Entering iteration [attempt]: the loop test, then lines 313-314 up to
    the [await]. *)
Definition enter (attempt : nat) (this : t) (deps : jsval) (ctx : Ctx)
    : list Effect * t * Pc :=
  if Z.of_nat attempt <? maxRetries (_retryPolicy this) + 1 then
    ([EStatus Running; EExecute deps ctx attempt],
     set_status Running this, AtExecute attempt)
  else ([], this, Settled (Thrown (ErrorObj "Unexpected end of run method"))).

(** The call [task.run(deps, ctx)] up to its first [await]. *)
Definition start (this : t) (deps : jsval) (ctx : Ctx)
    : list Effect * t * Pc :=
  enter 0 this deps ctx.

(** The awaited promise settles and [run] goes on to its next [await] or to
    its end. The operation and the handler are taken to settle after the
    [await] that calls them, as an [async] function does; one that throws
    before it returns a promise makes the [catch] block run before the
    suspension, with the same effects in the same order for this task. *)
Definition resume (pc : Pc) (this : t) (deps : jsval) (ctx : Ctx)
    : option (list Effect * t * Pc) :=
  match pc with
  | AtExecute attempt =>
      match execute (options this) deps ctx attempt with
      | Returned result =>
          Some ([EStatus Completed], set_status Completed this,
                Settled (Returned result))
      | Thrown err =>
          match template_throws err with
          | Some conversion => Some ([], this, Settled (Thrown conversion))
          | None =>
              if decide (Z.of_nat attempt = maxRetries (_retryPolicy this)) then
                match errorHandler (options this) with
                | Some _ =>
                    Some (exhausted_prefix this deps ctx attempt err, this,
                          AtErrorHandler (to_error err))
                | None =>
                    Some (exhausted_prefix this deps ctx attempt err
                            ++ [EStatus Failed],
                          set_status Failed this,
                          Settled (Thrown (to_error err)))
                end
              else
                Some ([EConsoleError
                         (MsgRetrying (attempt + 1)
                            (maxRetries (_retryPolicy this)) err);
                       ESleep (retryDelayMs (_retryPolicy this))],
                      this, AtSleep attempt)
          end
      end
  | AtSleep attempt => Some (enter (S attempt) this deps ctx)
  | AtErrorHandler error =>
      match handler_rethrows this deps ctx error with
      | Some conversion =>
          Some (handler_suffix this deps ctx error, this,
                Settled (Thrown conversion))
      | None =>
          Some (handler_suffix this deps ctx error ++ [EStatus Failed],
                set_status Failed this, Settled (Thrown error))
      end
  | Settled _ => None
  end.

(** [resume] until the promise settles, [fuel] times at most. *)
Fixpoint drive (fuel : nat) (st : list Effect * t * Pc) (deps : jsval)
    (ctx : Ctx) : option (list Effect * t * outcome) :=
  match st with
  | (effects, this, Settled o) => Some (effects, this, o)
  | (effects, this, pc) =>
      match fuel with
      | O => None
      | S fuel' =>
          match resume pc this deps ctx with
          | Some (effects', this', pc') =>
              drive fuel' (effects ++ effects', this', pc') deps ctx
          | None => None
          end
      end
  end.

End Task.

(** ** TaskGraphRunner ([task-graph.ts], lines 212-303) *)

(** The context seed: a literal value, or a factory (a JS function, always
    truthy), kept by what calling and awaiting it yields. *)
Inductive ContextSeed : Type :=
  | SeedValue (v : jsval)
  | SeedFactory (call : outcome).

(** A JS [Set] in insertion order. *)
Definition Set_add (l : list string) (x : string) : list string :=
  if decide (x ∈ l) then l else l ++ [x].

Definition Set_delete (l : list string) (x : string) : list string :=
  filter (fun y => y ≠ x) l.

Definition Set_of_list (l : list string) : list string := foldl Set_add [] l.

Module TaskGraphRunner.

Record t : Type := {
  _dependencies : jsval;
  _contextValueOrFactory : ContextSeed;
  _topologicalOrder : list string;
  _tasks : list (string * Task.t);
  context : Context.t
}.

(** The constructor, with the field initialiser of line 216. *)
Definition new (deps : jsval) (seed : ContextSeed) (order : list string)
    (tasks : list (string * Task.t)) : t :=
  {| _dependencies := deps; _contextValueOrFactory := seed;
     _topologicalOrder := order; _tasks := tasks;
     context := Context.new JUndefined |}.

(** Where the closure [runTask] of one task is suspended: at
    [await task.run(...)] (line 261), with the context object it passed and
    the state of that call, or at [await this.context.update(...)] (line
    262), with the promise it waits for. *)
Inductive RunTaskPc : Type :=
  | AwaitTaskRun (ctx : Ctx) (pc : Task.Pc)
  | AwaitUpdate (ticket : nat).

(** Where [run] itself is: about to test the loop condition (line 283),
    suspended on the race (line 293) and whether one of the raced promises
    has settled, or settled itself. *)
Inductive MainPc : Type :=
  | AtLoop
  | AwaitRace (settled : bool)
  | RunResolved (ctx : Ctx)
  | RunRejected (e : Error).

(** The state of one call of [run]: the objects it shares with its tasks,
    its local variables, and the effects of the tasks so far, each with the
    id of its task. *)
Record RunState : Type := {
  tasks : list (string * Task.t);
  ctx : Context.t;
  completed : gset string;
  running : gmap string RunTaskPc;
  readyTasks : list string;
  main : MainPc;
  trace : list (string * Effect)
}.

Definition with_tasks (s : RunState) (x : list (string * Task.t)) : RunState :=
  {| tasks := x; ctx := ctx s; completed := completed s;
     running := running s; readyTasks := readyTasks s; main := main s;
     trace := trace s |}.
Definition with_ctx (s : RunState) (x : Context.t) : RunState :=
  {| tasks := tasks s; ctx := x; completed := completed s;
     running := running s; readyTasks := readyTasks s; main := main s;
     trace := trace s |}.
Definition with_completed (s : RunState) (x : gset string) : RunState :=
  {| tasks := tasks s; ctx := ctx s; completed := x;
     running := running s; readyTasks := readyTasks s; main := main s;
     trace := trace s |}.
Definition with_running (s : RunState) (x : gmap string RunTaskPc) : RunState :=
  {| tasks := tasks s; ctx := ctx s; completed := completed s;
     running := x; readyTasks := readyTasks s; main := main s;
     trace := trace s |}.
Definition with_readyTasks (s : RunState) (x : list string) : RunState :=
  {| tasks := tasks s; ctx := ctx s; completed := completed s;
     running := running s; readyTasks := x; main := main s;
     trace := trace s |}.
Definition with_main (s : RunState) (x : MainPc) : RunState :=
  {| tasks := tasks s; ctx := ctx s; completed := completed s;
     running := running s; readyTasks := readyTasks s; main := x;
     trace := trace s |}.
Definition with_trace (s : RunState) (x : list (string * Effect)) : RunState :=
  {| tasks := tasks s; ctx := ctx s; completed := completed s;
     running := running s; readyTasks := readyTasks s; main := main s;
     trace := x |}.

(** Lines 237-243: the value that [reset] receives. *)
Definition seed_value (seed : ContextSeed) : res jsval :=
  match seed with
  | SeedValue v => if truthy v then Ok v else Ok JUndefined
  | SeedFactory (Returned v) => Ok v
  | SeedFactory (Thrown e) => Throws (SeedFactoryThrew e)
  end.

(** Lines 249-253: the filter over [_topologicalOrder]. *)
Fixpoint without_dependencies (tasks : list (string * Task.t))
    (order : list string) : res (list string) :=
  match order with
  | [] => Ok []
  | taskId :: order' =>
      match Map_get tasks taskId with
      | None => Throws (TaskNotFound taskId)
      | Some task =>
          match without_dependencies tasks order' with
          | Ok l =>
              Ok (if decide (length (Task._dependencies task) = 0%nat)
                  then taskId :: l else l)
          | r => r
          end
      end
  end.

(** [run()] up to the loop (lines 233-254). *)
Definition start (this : t) : res RunState :=
  if decide (length (_topologicalOrder this) = 0%nat) then Throws NoTasksToRun
  else
    match seed_value (_contextValueOrFactory this) with
    | Ok value =>
        match without_dependencies (_tasks this) (_topologicalOrder this) with
        | Ok l =>
            Ok {| tasks := _tasks this;
                  ctx := Context.reset (context this) value;
                  completed := ∅; running := ∅;
                  readyTasks := Set_of_list l;
                  main := AtLoop; trace := [] |}
        | Throws e => Throws e
        | OutOfFuel => OutOfFuel
        end
    | Throws e => Throws e
    | OutOfFuel => OutOfFuel
    end.

(** Lines 273-276. *)
Definition canRun (s : RunState) (t : Task.t) : bool :=
  forallb
    (fun depId =>
       match Map_get (tasks s) depId with
       | Some depTask =>
           bool_decide (depId ∈ completed s)
           && bool_decide (Task._status depTask = Completed)
       | None => false
       end)
    (Task._dependencies t).

(** Lines 271-279: the tasks that become ready. *)
Definition rescan (s : RunState) : RunState :=
  foldl
    (fun s' '(id, t) =>
       if bool_decide (id ∉ completed s') && bool_decide (running s' !! id = None)
       then if canRun s' t
            then with_readyTasks s' (Set_add (readyTasks s') id)
            else s'
       else s')
    s (tasks s).

(** The promise of a [runTask] resolves: the race that [run] is suspended
    on, if any, settles. *)
Definition settle_race (m : MainPc) : MainPc :=
  match m with
  | AwaitRace _ => AwaitRace true
  | m' => m'
  end.

(** From [completed.add(taskId)] (lines 263 and 266) through the [finally]
    block (lines 268-279) to the end of [runTask]. *)
Definition finish (taskId : string) (s : RunState) : RunState :=
  let s1 := with_completed s ({[taskId]} ∪ completed s) in
  let s2 := with_running s1 (delete taskId (running s1)) in
  let s3 := rescan s2 in
  with_main s3 (settle_race (main s3)).

(** One turn of the loop of lines 285-289: [runTask(taskId)] up to its first
    [await], which is inside [task.run]. A missing task would make [runTask]
    reject, and the race and [run] after it. *)
Definition launch (this : t) (s : RunState) (taskId : string) : RunState :=
  let s1 := with_readyTasks s (Set_delete (readyTasks s) taskId) in
  match Map_get (tasks s1) taskId with
  | None =>
      match main s1 with
      | RunRejected _ => s1
      | _ => with_main s1 (RunRejected (TaskNotFound taskId))
      end
  | Some task =>
      let c := Context.value (ctx s1) in
      let '(effects, task', pc) := Task.start task (_dependencies this) c in
      with_trace
        (with_running
           (with_tasks s1 (Map_set (tasks s1) taskId task'))
           (<[taskId := AwaitTaskRun c pc]> (running s1)))
        (trace s1 ++ (pair taskId <$> effects))
  end.

(** [run] from the loop test (line 283) to its next suspension or its end
    (line 301). *)
Definition main_loop (this : t) (s : RunState) : RunState :=
  if decide (size (completed s) < Map_size (tasks s))%nat then
    let s1 := foldl (launch this) s (readyTasks s) in
    match main s1 with
    | RunRejected _ => s1
    | _ =>
        if decide (0 < size (running s1))%nat
        then with_main s1 (AwaitRace false)
        else with_main s1 (RunResolved (Context.value (ctx s1)))
    end
  else with_main s (RunResolved (Context.value (ctx s))).

(** What the event loop can do next for this call of [run]. *)
Inductive Event : Type :=
  | MainResumes
  | TaskResumes (taskId : string)
  | RunTaskResumes (taskId : string)
  | CallbackRuns.

(** One event; [None] when the event cannot happen in [s]. *)
Definition step (this : t) (ev : Event) (s : RunState) : option RunState :=
  match ev with
  | MainResumes =>
      match main s with
      | AtLoop | AwaitRace true => Some (main_loop this s)
      | _ => None
      end
  | TaskResumes taskId =>
      match running s !! taskId, Map_get (tasks s) taskId with
      | Some (AwaitTaskRun c pc), Some task =>
          match Task.resume pc task (_dependencies this) c with
          | Some (effects, task', pc') =>
              Some (with_trace
                      (with_running
                         (with_tasks s (Map_set (tasks s) taskId task'))
                         (<[taskId := AwaitTaskRun c pc']> (running s)))
                      (trace s ++ (pair taskId <$> effects)))
          | None => None
          end
      | _, _ => None
      end
  | RunTaskResumes taskId =>
      match running s !! taskId with
      | Some (AwaitTaskRun _ (Task.Settled (Returned result))) =>
          let '(c', ticket) := Context.update (ctx s) {[ taskId := result ]} in
          Some (with_running (with_ctx s c')
                  (<[taskId := AwaitUpdate ticket]> (running s)))
      | Some (AwaitTaskRun _ (Task.Settled (Thrown _))) =>
          Some (finish taskId s)
      | Some (AwaitUpdate ticket) =>
          if Context.resolved (ctx s) ticket then Some (finish taskId s)
          else None
      | _ => None
      end
  | CallbackRuns =>
      match Context.run_callback (ctx s) with
      | Some c' => Some (with_ctx s c')
      | None => None
      end
  end.

(** A schedule: the events in the order the event loop takes them. *)
Fixpoint exec (this : t) (evs : list Event) (s : RunState) : option RunState :=
  match evs with
  | [] => Some s
  | ev :: evs' =>
      match step this ev s with
      | Some s' => exec this evs' s'
      | None => None
      end
  end.

End TaskGraphRunner.

(** ** TaskGraphBuilder ([task-graph.ts], lines 100-203) *)

(** The sets and the output array that [_topologicalSort] and its closure
    [visit] share. *)
Record SortState : Type := {
  visited : gset string;
  temp : gset string;
  order : list string
}.

(** [for (const x of xs) body(x)], stopping at the first throw. *)
Fixpoint for_each {S : Type} (body : string -> S -> S * res unit)
    (xs : list string) (s : S) : S * res unit :=
  match xs with
  | [] => (s, Ok ())
  | x :: xs' =>
      match body x s with
      | (s', Ok _) => for_each body xs' s'
      | r => r
      end
  end.

(** The closure [visit] of [_topologicalSort] (lines 186-197). The recursion
    is on [fuel]; [_topologicalSort] supplies enough of it. *)
Fixpoint visit (fuel : nat) (tasks : list (string * Task.t)) (taskId : string)
    (s : SortState) : SortState * res unit :=
  match fuel with
  | O => (s, OutOfFuel)
  | S fuel' =>
      if decide (taskId ∈ temp s) then (s, Throws (CircularDependency taskId))
      else if decide (taskId ∈ visited s) then (s, Ok ())
      else
        let s1 := {| visited := visited s; temp := {[taskId]} ∪ temp s;
                     order := order s |} in
        match Map_get tasks taskId with
        | None => (s1, Throws (TaskNotFound taskId))
        | Some task =>
            match for_each (visit fuel' tasks) (Task._dependencies task) s1 with
            | (s2, Ok _) =>
                ({| visited := {[taskId]} ∪ visited s2;
                    temp := temp s2 ∖ {[taskId]};
                    order := order s2 ++ [taskId] |}, Ok ())
            | r => r
            end
        end
  end.

Module TaskGraphBuilder.

Record t : Type := {
  _dependencies : jsval;
  _contextValueOrFactory : ContextSeed;
  _tasks : list (string * Task.t);
  _topologicalOrder : list string
}.

(** The constructor, as [TaskGraph.finalize] calls it. *)
Definition new (deps : jsval) (seed : ContextSeed) : t :=
  {| _dependencies := deps; _contextValueOrFactory := seed;
     _tasks := []; _topologicalOrder := [] |}.

Definition with_tasks (this : t) (tasks : list (string * Task.t)) : t :=
  {| _dependencies := _dependencies this;
     _contextValueOrFactory := _contextValueOrFactory this;
     _tasks := tasks; _topologicalOrder := _topologicalOrder this |}.

Definition with_order (this : t) (o : list string) : t :=
  {| _dependencies := _dependencies this;
     _contextValueOrFactory := _contextValueOrFactory this;
     _tasks := _tasks this; _topologicalOrder := o |}.

(** The loop of [addTask] (lines 141-146) over the declared dependencies.
    [task] is the object already stored in the map under its id, so the
    dependencies pushed before a throw stay on it. The parameter's type makes
    every [depId] a string, so the [typeof] guard of line 142 never fires. *)
Fixpoint add_dependencies (tasks : list (string * Task.t)) (taskId : string)
    (deps : list string) (task : Task.t) : Task.t * res unit :=
  match deps with
  | [] => (task, Ok ())
  | depId :: deps' =>
      match Map_get tasks depId with
      | None => (task, Throws (DependencyNotFound depId taskId))
      | Some _ =>
          match Task.addDependency task depId with
          | Ok task' => add_dependencies tasks taskId deps' task'
          | Throws e => (task, Throws e)
          | OutOfFuel => (task, OutOfFuel)
          end
      end
  end.

(** [addTask(options)]: the builder the call leaves, and its result. *)
Definition addTask (this : t) (o : TaskOptions) : t * res unit :=
  let taskId := id o in
  if Map_has (_tasks this) taskId then (this, Throws (TaskAlreadyExists taskId))
  else
    match Task.new o with
    | Ok task =>
        let tasks1 := Map_set (_tasks this) taskId task in
        let '(task', r) :=
          add_dependencies tasks1 taskId (default [] (dependencies o)) task in
        (with_tasks this (Map_set tasks1 taskId task'), r)
    | Throws e => (this, Throws e)
    | OutOfFuel => (this, OutOfFuel)
    end.

(** [get size()] *)
Definition size (this : t) : nat := Map_size (_tasks this).

(** [_topologicalSort()] (lines 182-202): the outer loop over the keys in
    insertion order. [visit] nests at most once per task, plus the call that
    finds a task on [temp] or [visited]. *)
Definition _topologicalSort (this : t) : t * res unit :=
  let tasks := _tasks this in
  let s0 := {| visited := ∅; temp := ∅; order := _topologicalOrder this |} in
  let '(s, r) :=
    for_each (fun taskId s =>
                if decide (taskId ∈ visited s) then (s, Ok ())
                else visit (S (length tasks)) tasks taskId s)
             (Map_keys tasks) s0 in
  (with_order this (order s), r).

(** [build()]. The runner receives the builder's own map and array; it is
    modelled with their contents at that moment. *)
Definition build (this : t) : t * res TaskGraphRunner.t :=
  if decide (size this = 0%nat) then (this, Throws NoTasksAdded)
  else
    match _topologicalSort this with
    | (this', Ok _) =>
        (this', Ok (TaskGraphRunner.new (_dependencies this')
                      (_contextValueOrFactory this')
                      (_topologicalOrder this') (_tasks this')))
    | (this', Throws e) => (this', Throws e)
    | (this', OutOfFuel) => (this', OutOfFuel)
    end.

End TaskGraphBuilder.

(** ** TaskGraph ([task-graph.ts], lines 35-90) *)

Module TaskGraph.

Record t : Type := {
  _contextValueOrFactory : ContextSeed;
  _dependencies : jsval
}.

(** [new TaskGraph()]: the context value undefined, the dependencies
    [Object.create(null)]. *)
Definition new : t :=
  {| _contextValueOrFactory := SeedValue JUndefined; _dependencies := JObj [] |}.

(** [finalize()] *)
Definition finalize (this : t) : TaskGraphBuilder.t :=
  TaskGraphBuilder.new (_dependencies this) (_contextValueOrFactory this).

(** [setContext(valueOrFactory)] *)
Definition setContext (this : t) (valueOrFactory : ContextSeed) : t :=
  {| _contextValueOrFactory := valueOrFactory;
     _dependencies := _dependencies this |}.

(** [setDependencies(value)] *)
Definition setDependencies (this : t) (value : jsval) : res t :=
  match value with
  | JObj _ =>
      Ok {| _contextValueOrFactory := _contextValueOrFactory this;
            _dependencies := value |}
  | _ => Throws DependenciesNotAnObject
  end.

End TaskGraph.

(** ** Definitions that the statements use *)

(** [addTask] as a chain of checks, in the words of its description: the
    answer for the declared dependencies is that of the first one that is
    the task itself or is not registered. *)
Fixpoint spec_dependencies_result (registered : list string) (taskId : string)
    (deps : list string) : res unit :=
  match deps with
  | [] => Ok ()
  | d :: deps' =>
      if decide (d = taskId) then Throws SelfDependency
      else if decide (d ∈ registered)
           then spec_dependencies_result registered taskId deps'
           else Throws (DependencyNotFound d taskId)
  end.

Definition spec_retryPolicy_result (o : TaskOptions) : res unit :=
  match retryPolicy o with
  | Some p =>
      if maxRetries p <? 0 then Throws InvalidMaxRetries
      else if retryDelayMs p <? 0 then Throws InvalidRetryDelayMs
      else Ok ()
  | None => Ok ()
  end.

Definition spec_addTask_result (registered : list string) (o : TaskOptions)
    : res unit :=
  if decide (id o ∈ registered) then Throws (TaskAlreadyExists (id o))
  else
    match spec_retryPolicy_result o with
    | Ok _ =>
        spec_dependencies_result registered (id o) (default [] (dependencies o))
    | r => r
    end.

(** The dependency graph of a task map: [x] depends on [y]. *)
Definition depends_on (tasks : list (string * Task.t)) (x y : string) : Prop :=
  exists t, Map_get tasks x = Some t /\ y ∈ Task._dependencies t.

(** No task reaches itself along dependencies. *)
Definition acyclic (tasks : list (string * Task.t)) : Prop :=
  forall x, ~ tc (depends_on tasks) x x.

(** Every dependency names a task of the map. *)
Definition closed (tasks : list (string * Task.t)) : Prop :=
  forall x y, depends_on tasks x y -> y ∈ Map_keys tasks.

(** In [ord], every dependency of a task stands strictly before it. *)
Definition dependencies_first (tasks : list (string * Task.t))
    (ord : list string) : Prop :=
  forall i x y, ord !! i = Some x -> depends_on tasks x y ->
    exists j, (j < i)%nat /\ ord !! j = Some y.

(** The task maps that [addTask] builds: unique ids, every dependency
    registered before its dependent. *)
Definition insertion_ordered (tasks : list (string * Task.t)) : Prop :=
  NoDup (Map_keys tasks) /\ dependencies_first tasks (Map_keys tasks).

(** What [visit] keeps true of the sets and of the output array: the array
    is [order0] followed by the visited tasks, each once, dependencies
    first; no task is both in progress and done. *)
Definition sort_inv (tasks : list (string * Task.t)) (order0 : list string)
    (s : SortState) : Prop :=
  exists ord,
    order s = order0 ++ ord /\ NoDup ord /\
    visited s = list_to_set ord /\
    temp s ## visited s /\
    visited s ⊆ list_to_set (Map_keys tasks) /\
    dependencies_first tasks ord.

(** A chain [builder.addTask(o1).addTask(o2)...]: it ends at the first call
    that throws. *)
Fixpoint addTasks (b : TaskGraphBuilder.t) (os : list TaskOptions)
    : TaskGraphBuilder.t * res unit :=
  match os with
  | [] => (b, Ok ())
  | o :: os' =>
      match TaskGraphBuilder.addTask b o with
      | (b', Ok _) => addTasks b' os'
      | r => r
      end
  end.

(** The effects of a run by kind. *)
Definition is_execute (e : Effect) : bool :=
  match e with EExecute _ _ _ => true | _ => false end.

Definition is_handler_call (e : Effect) : bool :=
  match e with EErrorHandler _ _ _ => true | _ => false end.

Definition is_sleep (e : Effect) : bool :=
  match e with ESleep _ => true | _ => false end.

Definition is_status_or_execute (e : Effect) : bool :=
  match e with EStatus _ | EExecute _ _ _ => true | _ => false end.

Fixpoint status_writes (effects : list Effect) : list Status :=
  match effects with
  | [] => []
  | EStatus s :: effects' => s :: status_writes effects'
  | _ :: effects' => status_writes effects'
  end.

(** A failed attempt that is retried: the status write, the call, the
    message and the delay before the next attempt. *)
Definition retried_attempt (this : Task.t) (deps : jsval) (ctx : Ctx)
    (errs : nat -> thrown) (attempt : nat) : list Effect :=
  [EStatus Running; EExecute deps ctx attempt;
   EConsoleError
     (MsgRetrying (attempt + 1) (maxRetries (Task._retryPolicy this))
        (errs attempt));
   ESleep (retryDelayMs (Task._retryPolicy this))].

(** The last attempt and what follows it when it fails too. *)
Definition last_attempt (this : Task.t) (deps : jsval) (ctx : Ctx)
    (errs : nat -> thrown) (attempt : nat) : list Effect :=
  [EStatus Running; EExecute deps ctx attempt]
    ++ Task.exhausted_prefix this deps ctx attempt (errs attempt)
    ++ Task.handler_suffix this deps ctx (to_error (errs attempt))
    ++ [EStatus Failed].

(** What concurrent callers and the event loop do to a context, in the
    order in which it happens: a caller calls [update], or the oldest chained
    callback runs (nothing happens if there is none). *)
Inductive ContextAction : Type :=
  | CallUpdate (updateValue : Ctx)
  | CallbackRun.

Definition context_step (c : Context.t) (a : ContextAction) : Context.t :=
  match a with
  | CallUpdate u => fst (Context.update c u)
  | CallbackRun => default c (Context.run_callback c)
  end.

Definition context_run (actions : list ContextAction) (c : Context.t)
    : Context.t :=
  foldl context_step c actions.

(** The event loop runs the callbacks that are still chained. *)
Definition context_drain (c : Context.t) : Context.t :=
  context_run (replicate (length (Context.queued c)) CallbackRun) c.

(** The values passed to [update], in call order. *)
Fixpoint issued (actions : list ContextAction) : list Ctx :=
  match actions with
  | [] => []
  | CallUpdate u :: actions' => u :: issued actions'
  | CallbackRun :: actions' => issued actions'
  end.

(** No key occurs in two of the updates. *)
Fixpoint pairwise_distinct_keys (us : list Ctx) : Prop :=
  match us with
  | [] => True
  | u :: us' => Forall (fun u' => u ##ₘ u') us' /\ pairwise_distinct_keys us'
  end.

(** *** The invariant of a run *)

(** The task objects of a run are those of the runner; only their status
    changes. *)
Definition same_task (t0 t : Task.t) : Prop :=
  t = Task.set_status (Task._status t) t0.

Definition tasks_like (ts0 ts : list (string * Task.t)) : Prop :=
  Forall2 (fun x0 x => fst x = fst x0 /\ same_task (snd x0) (snd x)) ts0 ts.


(** What holds of every state of the run of [this] that started in [s0]. *)
Record run_inv (this : TaskGraphRunner.t) (s0 s : TaskGraphRunner.RunState)
    : Prop := {
  inv_tasks :
    tasks_like (TaskGraphRunner._tasks this) (TaskGraphRunner.tasks s);
  inv_ready_nodup : NoDup (TaskGraphRunner.readyTasks s);
  inv_ready_keys : forall x,
    x ∈ TaskGraphRunner.readyTasks s -> x ∈ Map_keys (TaskGraphRunner._tasks this);
  inv_running_keys : forall x,
    x ∈ dom (TaskGraphRunner.running s) -> x ∈ Map_keys (TaskGraphRunner._tasks this);
  inv_completed_keys : forall x,
    x ∈ TaskGraphRunner.completed s -> x ∈ Map_keys (TaskGraphRunner._tasks this);
  inv_ready_running : forall x,
    x ∈ TaskGraphRunner.readyTasks s -> x ∉ dom (TaskGraphRunner.running s);
  inv_ready_completed : forall x,
    x ∈ TaskGraphRunner.readyTasks s -> x ∉ TaskGraphRunner.completed s;
  inv_running_completed : forall x,
    x ∈ dom (TaskGraphRunner.running s) -> x ∉ TaskGraphRunner.completed s;
  inv_tickets : forall x ticket,
    TaskGraphRunner.running s !! x = Some (TaskGraphRunner.AwaitUpdate ticket) ->
    (ticket < Context.applied (TaskGraphRunner.ctx s)
              + length (Context.queued (TaskGraphRunner.ctx s)))%nat;
  inv_queue : forall i u,
    Context.queued (TaskGraphRunner.ctx s) !! i = Some u ->
    exists x v, u = {[ x := v ]} /\
      TaskGraphRunner.running s !! x =
        Some (TaskGraphRunner.AwaitUpdate
                (Context.applied (TaskGraphRunner.ctx s) + i));
  inv_race :
    TaskGraphRunner.main s = TaskGraphRunner.AwaitRace false ->
    TaskGraphRunner.running s ≠ ∅;
  inv_not_rejected : forall e,
    TaskGraphRunner.main s ≠ TaskGraphRunner.RunRejected e;
  inv_resolved : forall c,
    TaskGraphRunner.main s = TaskGraphRunner.RunResolved c ->
    c = Context.value (TaskGraphRunner.ctx s) /\ TaskGraphRunner.running s = ∅;
  inv_untouched : forall x,
    x ∉ dom (TaskGraphRunner.running s) -> x ∉ TaskGraphRunner.completed s ->
    (forall e, (x, e) ∉ TaskGraphRunner.trace s) /\
    Context.object (TaskGraphRunner.ctx s) !! x
      = Context.object (TaskGraphRunner.ctx s0) !! x /\
    Map_get (TaskGraphRunner.tasks s) x = Map_get (TaskGraphRunner.tasks s0) x
}.


(** *** A bound on the events of a run *)

Definition pc_weight (n : nat) (pc : TaskGraphRunner.RunTaskPc) : nat :=
  match pc with
  | TaskGraphRunner.AwaitTaskRun _ (Task.AtExecute a) => 2 * (n - a) + 8
  | TaskGraphRunner.AwaitTaskRun _ (Task.AtSleep a) => 2 * (n - a) + 7
  | TaskGraphRunner.AwaitTaskRun _ (Task.AtErrorHandler _) => 6
  | TaskGraphRunner.AwaitTaskRun _ (Task.Settled _) => 5
  | TaskGraphRunner.AwaitUpdate _ => 2
  end.





(** Inputs for the examples. *)
Definition returns (v : jsval) : ExecuteFn := fun _ _ _ => Returned v.

Definition always_throws (message : string) : ExecuteFn :=
  fun _ _ _ => Thrown (ErrorObj message).

Definition task_options (taskId : string) (e : ExecuteFn) (deps : list string)
    : TaskOptions :=
  {| id := taskId; execute := e; dependencies := Some deps;
     retryPolicy := None; errorHandler := None |}.

Definition malformed_policy_options : TaskOptions :=
  {| id := "A"; execute := returns JNull; dependencies := None;
     retryPolicy := Some {| maxRetries := -1; retryDelayMs := 0 |};
     errorHandler := None |}.

Definition empty_builder : TaskGraphBuilder.t :=
  TaskGraph.finalize TaskGraph.new.

(** A task whose operation always throws, with two retries 10 ms apart and
    an error handler. *)
Definition failing_task : Task.t :=
  {| Task.options :=
       {| id := "A"; execute := always_throws "boom"; dependencies := None;
          retryPolicy := Some {| maxRetries := 2; retryDelayMs := 10 |};
          errorHandler := Some (fun _ _ _ => Returned JUndefined) |};
     Task._dependencies := [];
     Task._retryPolicy := {| maxRetries := 2; retryDelayMs := 10 |};
     Task._status := Pending |}.

(** What [`${err}`] throws when [err] is a Symbol: a TypeError. *)
Definition symbol_conversion : thrown :=
  ErrorObj "Cannot convert a Symbol value to a string".

(** The same task with an operation that always throws a Symbol:
    [execute: () => { throw Symbol("boom") }]. *)
Definition symbol_task : Task.t :=
  {| Task.options :=
       {| id := "A";
          execute := fun _ _ _ => Thrown (Unprintable symbol_conversion);
          dependencies := None;
          retryPolicy := Some {| maxRetries := 2; retryDelayMs := 10 |};
          errorHandler := Some (fun _ _ _ => Returned JUndefined) |};
     Task._dependencies := [];
     Task._retryPolicy := {| maxRetries := 2; retryDelayMs := 10 |};
     Task._status := Pending |}.

(** An operation that throws on its first [failures] calls and returns [v]
    afterwards, and a task that runs it with attempts to spare. *)
Definition flaky (failures : nat) (v : jsval) : ExecuteFn :=
  fun _ _ attempt =>
    if decide (attempt < failures)%nat then Thrown (ErrorObj "not yet")
    else Returned v.

Definition flaky_task : Task.t :=
  {| Task.options :=
       {| id := "A"; execute := flaky 1 (JNum 7); dependencies := None;
          retryPolicy := Some {| maxRetries := 2; retryDelayMs := 10 |};
          errorHandler := Some (fun _ _ _ => Returned JUndefined) |};
     Task._dependencies := [];
     Task._retryPolicy := {| maxRetries := 2; retryDelayMs := 10 |};
     Task._status := Pending |}.

(** A task that succeeds at once, as [addTask] creates it, and the same
    task after one run. *)
Definition fresh_task : Task.t :=
  {| Task.options := task_options "A" (returns (JNum 1)) [];
     Task._dependencies := [];
     Task._retryPolicy := {| maxRetries := 0; retryDelayMs := 0 |};
     Task._status := Pending |}.

Definition task_after_run (this : Task.t) : Task.t :=
  snd (fst (Task.run this (JObj []) ∅)).

(** The runner that [build] returns; on a builder for which [build] throws,
    a runner without tasks. *)
Definition built_runner (b : TaskGraphBuilder.t) : TaskGraphRunner.t :=
  match snd (TaskGraphBuilder.build b) with
  | Ok r => r
  | _ => TaskGraphRunner.new JUndefined (SeedValue JUndefined) [] []
  end.

(** The state in which the loop of [run] starts; on a runner whose [run]
    rejects before its loop, a state without tasks. *)
Definition started (this : TaskGraphRunner.t) : TaskGraphRunner.RunState :=
  match TaskGraphRunner.start this with
  | Ok s => s
  | _ => {| TaskGraphRunner.tasks := [];
            TaskGraphRunner.ctx := TaskGraphRunner.context this;
            TaskGraphRunner.completed := ∅; TaskGraphRunner.running := ∅;
            TaskGraphRunner.readyTasks := [];
            TaskGraphRunner.main := TaskGraphRunner.RunRejected NoTasksToRun;
            TaskGraphRunner.trace := [] |}
  end.

(** The same runner with another context seed. *)
Definition runner_with_seed (this : TaskGraphRunner.t) (seed : ContextSeed)
    : TaskGraphRunner.t :=
  {| TaskGraphRunner._dependencies := TaskGraphRunner._dependencies this;
     TaskGraphRunner._contextValueOrFactory := seed;
     TaskGraphRunner._topologicalOrder := TaskGraphRunner._topologicalOrder this;
     TaskGraphRunner._tasks := TaskGraphRunner._tasks this;
     TaskGraphRunner.context := TaskGraphRunner.context this |}.

Definition count_seed : ContextSeed := SeedValue (JObj [("count", JNum 0)]).

(** [new TaskGraph().setContext({count: 0}).finalize()] *)
Definition count_builder : TaskGraphBuilder.t :=
  TaskGraph.finalize (TaskGraph.setContext TaskGraph.new count_seed).




(** A graph of one task, named like the reserved key, and its only run. *)
Definition task_named_initial_builder : TaskGraphBuilder.t :=
  fst (TaskGraphBuilder.addTask count_builder
         (task_options "initial" (returns (JNum 1)) [])).

Definition task_named_initial_schedule : list TaskGraphRunner.Event :=
  [TaskGraphRunner.MainResumes; TaskGraphRunner.TaskResumes "initial";
   TaskGraphRunner.RunTaskResumes "initial"; TaskGraphRunner.CallbackRuns;
   TaskGraphRunner.RunTaskResumes "initial"; TaskGraphRunner.MainResumes].

(** Three callers; a callback runs between the second call and the third. *)
Definition three_updates : list ContextAction :=
  [CallUpdate {[ "c" := JNum 3 ]}; CallUpdate {[ "a" := JNum 1 ]};
   CallbackRun; CallUpdate {[ "b" := JNum 2 ]}].

(** Task B depends on task A. *)
Definition two_task_builder : TaskGraphBuilder.t :=
  fst (addTasks empty_builder
         [task_options "A" (returns (JNum 1)) [];
          task_options "B" (returns (JNum 2)) ["A"]]).

(** * Properties *)

(** ** The insertion-ordered map *)

Section JsMapFacts.
Context {V : Type}.
Implicit Types (m : list (string * V)) (k : string) (v : V).


Lemma Map_get_is_Some m k : is_Some (Map_get m k) <-> k ∈ Map_keys m.
Proof.
  induction m as [|[k' v'] m IH]; simpl.
  - split; [intros [? ?]; done | intros Hk; inversion Hk].
  - case_decide; subst.
    + split; [intros _; left | eauto].
    + rewrite IH. split; [intros; by right|].
      intros H'; inversion H'; subst; done.
Qed.

Lemma Map_get_None m k : Map_get m k = None <-> k ∉ Map_keys m.
Proof. rewrite <- Map_get_is_Some, eq_None_not_Some. done. Qed.

Lemma Map_has_true m k : Map_has m k = true <-> k ∈ Map_keys m.
Proof.
  unfold Map_has. rewrite <- Map_get_is_Some.
  destruct (Map_get m k); split; intros Hk; try done; eauto.
Qed.

Lemma Map_has_false m k : Map_has m k = false <-> k ∉ Map_keys m.
Proof. rewrite <- Map_has_true. destruct (Map_has m k); naive_solver. Qed.

Lemma Map_set_fresh m k v : k ∉ Map_keys m -> Map_set m k v = m ++ [(k, v)].
Proof.
  induction m as [|[k' v'] m IH]; simpl; [done|]. intros Hk.
  apply not_elem_of_cons in Hk as [Hne Hk].
  case_decide; [congruence|]. by rewrite IH.
Qed.

Lemma Map_keys_set_present m k v : k ∈ Map_keys m -> Map_keys (Map_set m k v) = Map_keys m.
Proof.
  induction m as [|[k' v'] m IH]; simpl; [by intros Hk; inversion Hk|].
  intros Hk. case_decide; [done|]. simpl. f_equal. apply IH.
  inversion Hk; subst; done.
Qed.

Lemma Map_get_set_eq m k v : Map_get (Map_set m k v) k = Some v.
Proof.
  induction m as [|[k' v'] m IH]; simpl.
  - by rewrite decide_True.
  - destruct (decide (k' = k)) as [->|Hne]; simpl.
    + by rewrite decide_True.
    + by rewrite decide_False.
Qed.

Lemma Map_get_set_ne m k k' v : k ≠ k' -> Map_get (Map_set m k v) k' = Map_get m k'.
Proof.
  intros Hne. induction m as [|[k0 v0] m IH]; simpl.
  - by rewrite decide_False.
  - destruct (decide (k0 = k)) as [->|Hne0]; simpl.
    + by rewrite !decide_False.
    + by rewrite IH.
Qed.

Lemma Map_set_set m k v v' : Map_set (Map_set m k v) k v' = Map_set m k v'.
Proof.
  induction m as [|[k0 v0] m IH]; simpl.
  - by rewrite decide_True.
  - destruct (decide (k0 = k)) as [->|Hne0]; simpl.
    + by rewrite decide_True.
    + rewrite decide_False by done. by rewrite IH.
Qed.

Lemma Map_get_app_fresh m k v k' :
  Map_get (m ++ [(k, v)]) k' =
  match Map_get m k' with
  | Some x => Some x
  | None => if decide (k = k') then Some v else None
  end.
Proof.
  induction m as [|[k0 v0] m IH]; simpl; [done|].
  destruct (decide (k0 = k')); [done | apply IH].
Qed.


End JsMapFacts.

(** ** Tasks and the builder's [addTask] *)

Lemma Task_new_Ok o task :
  Task.new o = Ok task ->
  Task.options task = o /\ Task._dependencies task = [] /\
  Task._status task = Pending /\
  0 <= maxRetries (Task._retryPolicy task) /\
  0 <= retryDelayMs (Task._retryPolicy task).
Proof.
  unfold Task.new, Task._validateRetryPolicy. intros H.
  destruct (retryPolicy o) as [p|]; simplify_eq; simpl; [|repeat split; lia].
  destruct (Z.ltb_spec (maxRetries p) 0); [done|].
  destruct (Z.ltb_spec (retryDelayMs p) 0); [done|].
  simplify_eq. simpl. repeat split; lia.
Qed.

(** What the loop over the declared dependencies leaves on the task: the
    dependencies that passed both checks, in order, up to the first that
    fails one. *)
Lemma add_dependencies_spec tasks taskId deps task :
  id (Task.options task) = taskId ->
  forall task' r, TaskGraphBuilder.add_dependencies tasks taskId deps task = (task', r) ->
  Task.options task' = Task.options task /\
  Task._retryPolicy task' = Task._retryPolicy task /\
  Task._status task' = Task._status task /\
  exists pre,
    Task._dependencies task' = Task._dependencies task ++ pre /\
    Forall (fun d => d ∈ Map_keys tasks /\ d ≠ taskId) pre /\
    match r with
    | Ok _ => pre = deps
    | Throws e =>
        exists d post, deps = pre ++ d :: post /\
          (((d ∉ Map_keys tasks) /\ e = DependencyNotFound d taskId) \/
           (d ∈ Map_keys tasks /\ d = taskId /\ e = SelfDependency))
    | OutOfFuel => False
    end.
Proof.
  revert task. induction deps as [|d deps IH]; intros task Hid task' r; simpl.
  - intros [= <- <-]. repeat split; try done.
    exists []. by rewrite app_nil_r.
  - destruct (Map_get tasks d) as [x|] eqn:Hget.
    + assert (d ∈ Map_keys tasks) as Hin by (apply Map_get_is_Some; eauto).
      unfold Task.addDependency. destruct (decide (d = id (Task.options task))) as [->|Hne].
      * intros [= <- <-]. repeat split; try done.
        exists []. rewrite app_nil_r. repeat split; [done|].
        exists (id (Task.options task)), deps. split; [done|]. right. by subst.
      * intros Hrec. apply IH in Hrec; [|done]. simpl in Hrec.
        destruct Hrec as (-> & -> & -> & pre & Hdeps & Hpre & Hr).
        repeat split; try done. exists (d :: pre). split.
        { rewrite Hdeps. by rewrite <- app_assoc. }
        split; [constructor; [split; congruence | done]|].
        destruct r as [[]|e|]; [by subst| |done].
        destruct Hr as (d' & post & -> & Hr). by exists d', post.
    + intros [= <- <-]. repeat split; try done.
      exists []. rewrite app_nil_r. repeat split; [done|].
      exists d, deps. split; [done|]. left. split; [|by subst].
      by apply Map_get_None.
Qed.


Lemma add_dependencies_result tasks registered taskId deps task :
  id (Task.options task) = taskId ->
  (forall d, d ∈ Map_keys tasks <-> d ∈ registered \/ d = taskId) ->
  snd (TaskGraphBuilder.add_dependencies tasks taskId deps task) =
  spec_dependencies_result registered taskId deps.
Proof.
  intros Hid Hkeys. revert task Hid.
  induction deps as [|d deps IH]; intros task Hid; simpl; [done|].
  destruct (Map_get tasks d) as [x|] eqn:Hget.
  - assert (d ∈ Map_keys tasks) as Hin by (apply Map_get_is_Some; eauto).
    unfold Task.addDependency. rewrite Hid.
    destruct (decide (d = taskId)) as [->|Hne]; [done|].
    rewrite decide_True by (destruct (proj1 (Hkeys d) Hin); done).
    by apply IH.
  - apply Map_get_None in Hget.
    destruct (decide (d = taskId)) as [->|Hne].
    { exfalso. apply Hget, Hkeys. by right. }
    rewrite decide_False; [done|]. intros Hd. apply Hget, Hkeys. by left.
Qed.

Lemma addTask_unfold_fresh b o task :
  id o ∉ Map_keys (TaskGraphBuilder._tasks b) ->
  Task.new o = Ok task ->
  TaskGraphBuilder.addTask b o =
  let tasks1 := TaskGraphBuilder._tasks b ++ [(id o, task)] in
  let '(task', r) :=
    TaskGraphBuilder.add_dependencies tasks1 (id o)
      (default [] (dependencies o)) task in
  (TaskGraphBuilder.with_tasks b (TaskGraphBuilder._tasks b ++ [(id o, task')]), r).
Proof.
  intros Hfresh Hnew. unfold TaskGraphBuilder.addTask.
  rewrite (proj2 (Map_has_false _ _) Hfresh), Hnew. cbv zeta.
  rewrite (Map_set_fresh _ _ task) by done.
  destruct (TaskGraphBuilder.add_dependencies _ _ _ task) as [task' r].
  rewrite <- (Map_set_fresh _ _ task) by done.
  by rewrite Map_set_set, Map_set_fresh.
Qed.

(** ** C7: what [addTask] answers *)

(** C7 (amended). [addTask] answers exactly what the ordered checks say: the
    duplicate-task error when the id is registered; otherwise the error of a
    malformed retry policy; otherwise, for the first declared dependency that
    is the task's own id or is not registered, the self-dependency error or
    the unknown-dependency error respectively; otherwise success, and then
    the task is registered last, under its id, with its options and all its
    declared dependencies. *)
Theorem addTask_result_in_check_order (b : TaskGraphBuilder.t) (o : TaskOptions) :
  snd (TaskGraphBuilder.addTask b o) =
    spec_addTask_result (Map_keys (TaskGraphBuilder._tasks b)) o /\
  match snd (TaskGraphBuilder.addTask b o) with
  | Ok _ =>
      exists task,
        TaskGraphBuilder._tasks (fst (TaskGraphBuilder.addTask b o)) =
          TaskGraphBuilder._tasks b ++ [(id o, task)] /\
        Map_get (TaskGraphBuilder._tasks (fst (TaskGraphBuilder.addTask b o))) (id o)
          = Some task /\
        Task.options task = o /\
        Task._dependencies task = default [] (dependencies o) /\
        Task._status task = Pending
  | _ => True
  end.
Proof.
  unfold spec_addTask_result.
  destruct (decide (id o ∈ Map_keys (TaskGraphBuilder._tasks b))) as [Hin|Hfresh].
  { unfold TaskGraphBuilder.addTask.
    by rewrite (proj2 (Map_has_true _ _) Hin). }
  destruct (Task.new o) as [task|e|] eqn:Hnew.
  - rewrite (addTask_unfold_fresh _ _ _ Hfresh Hnew). simpl.
    assert (spec_retryPolicy_result o = Ok ()) as ->.
    { revert Hnew. unfold Task.new, spec_retryPolicy_result, Task._validateRetryPolicy.
      destruct (retryPolicy o) as [p|]; [|done].
      by repeat case_match. }
    pose proof (Task_new_Ok _ _ Hnew) as (Ho & Hd & Hs & _).
    destruct (TaskGraphBuilder.add_dependencies _ _ _ task) as [task' r] eqn:Hadd.
    simpl. split.
    + change r with (snd (task', r)). rewrite <- Hadd.
      apply add_dependencies_result; [by rewrite Ho|].
      intros d. unfold Map_keys. rewrite fmap_app, elem_of_app. simpl.
      rewrite list_elem_of_singleton. done.
    + destruct r as [[]|e|]; [|done|done].
      eapply add_dependencies_spec in Hadd; [|by rewrite Ho].
      destruct Hadd as (Ho' & _ & Hs' & pre & Hdeps & _ & ->).
      exists task'. split; [done|]. rewrite Map_get_app_fresh.
      rewrite (proj2 (Map_get_None _ _) Hfresh), decide_True by done.
      repeat split; [congruence | by rewrite Hdeps, Hd | congruence].
  - unfold TaskGraphBuilder.addTask.
    rewrite (proj2 (Map_has_false _ _) Hfresh), Hnew. simpl. split; [|done].
    revert Hnew. unfold Task.new, spec_retryPolicy_result, Task._validateRetryPolicy.
    destruct (retryPolicy o) as [p|]; [|done].
    repeat case_match; naive_solver.
  - exfalso. revert Hnew. unfold Task.new. by repeat case_match.
Qed.

(** C7, refuted as stated: a call with a fresh id and no dependency, so none
    of the three failure conditions, still fails when its retry policy is
    malformed; and a task that declares itself as a dependency gets the
    unknown-dependency error when an unregistered name is declared first. *)
Lemma addTask_other_failures :
  (id malformed_policy_options ∉ Map_keys (TaskGraphBuilder._tasks empty_builder)) /\
  dependencies malformed_policy_options = None /\
  snd (TaskGraphBuilder.addTask empty_builder malformed_policy_options)
    = Throws InvalidMaxRetries /\
  "A" ∈ default [] (dependencies (task_options "A" (returns JNull) ["X"; "A"])) /\
  snd (TaskGraphBuilder.addTask empty_builder
         (task_options "A" (returns JNull) ["X"; "A"]))
    = Throws (DependencyNotFound "X" "A").
Proof.
  split; [by intros H; inversion H|]. split; [done|]. split; [done|].
  split; [|done]. simpl. set_solver.
Qed.

(** ** C6: the builder after a failed [addTask] *)

(** C6 (amended). A call of [addTask] that fails on a duplicate id or on a
    malformed retry policy leaves the builder as it was. A call that fails on
    an unknown dependency or on a self-dependency has registered the task
    already: the tasks registered before are unchanged, and the new task
    follows them, as [new Task(options)] made it but for its dependencies,
    which are exactly the declared ones before the offending one [d]. Each
    of these is registered and is not the task itself; [d] is the task's
    own id when the error is the self-dependency error, and otherwise a
    name that is not registered, the one that the error names. *)
Theorem addTask_failure_state (b : TaskGraphBuilder.t) (o : TaskOptions) (e : Error) :
  snd (TaskGraphBuilder.addTask b o) = Throws e ->
  match e with
  | DependencyNotFound _ _ | SelfDependency =>
      exists task0 pre d post,
        Task.new o = Ok task0 /\
        default [] (dependencies o) = pre ++ d :: post /\
        Forall (fun x => x ∈ Map_keys (TaskGraphBuilder._tasks b) /\ x ≠ id o) pre /\
        ((d = id o /\ e = SelfDependency) \/
         (d ≠ id o /\ (d ∉ Map_keys (TaskGraphBuilder._tasks b)) /\
          e = DependencyNotFound d (id o))) /\
        fst (TaskGraphBuilder.addTask b o) =
          TaskGraphBuilder.with_tasks b
            (TaskGraphBuilder._tasks b ++
               [(id o, {| Task.options := o; Task._dependencies := pre;
                          Task._retryPolicy := Task._retryPolicy task0;
                          Task._status := Pending |})])
  | _ => fst (TaskGraphBuilder.addTask b o) = b
  end.
Proof.
  destruct (decide (id o ∈ Map_keys (TaskGraphBuilder._tasks b))) as [Hin|Hfresh].
  { unfold TaskGraphBuilder.addTask.
    rewrite (proj2 (Map_has_true _ _) Hin). simpl. by intros [= <-]. }
  destruct (Task.new o) as [task|e'|] eqn:Hnew.
  - rewrite (addTask_unfold_fresh _ _ _ Hfresh Hnew). simpl.
    pose proof (Task_new_Ok _ _ Hnew) as (Ho & Hd & Hst & _).
    destruct (TaskGraphBuilder.add_dependencies _ _ _ task) as [task' r] eqn:Hadd.
    simpl. intros ->.
    eapply add_dependencies_spec in Hadd; [|by rewrite Ho].
    destruct Hadd as (Ho' & Hp' & Hs' & pre & Hdeps & Hpre & d & post & Hsplit & He).
    rewrite Hd in Hdeps. simpl in Hdeps.
    assert (forall x, x ∈ Map_keys (TaskGraphBuilder._tasks b ++ [(id o, task)]) <->
                      x ∈ Map_keys (TaskGraphBuilder._tasks b) \/ x = id o) as Hkeys.
    { intros x. unfold Map_keys. rewrite fmap_app, elem_of_app. simpl.
      by rewrite list_elem_of_singleton. }
    assert (exists task0 pre0 d0 post0,
      Ok task = Ok task0 /\
      default [] (dependencies o) = pre0 ++ d0 :: post0 /\
      Forall (fun x => x ∈ Map_keys (TaskGraphBuilder._tasks b) /\ x ≠ id o) pre0 /\
      ((d0 = id o /\ e = SelfDependency) \/
       (d0 ≠ id o /\ (d0 ∉ Map_keys (TaskGraphBuilder._tasks b)) /\
        e = DependencyNotFound d0 (id o))) /\
      TaskGraphBuilder.with_tasks b (TaskGraphBuilder._tasks b ++ [(id o, task')]) =
      TaskGraphBuilder.with_tasks b
        (TaskGraphBuilder._tasks b ++
           [(id o, {| Task.options := o; Task._dependencies := pre0;
                      Task._retryPolicy := Task._retryPolicy task0;
                      Task._status := Pending |})])) as Hex.
    { exists task, pre, d, post. split; [done|]. split; [done|]. split.
      { eapply Forall_impl; [exact Hpre|]. intros x [Hx Hne]. split; [|done].
        apply Hkeys in Hx as [Hx|Hx]; done. }
      split.
      { destruct He as [[Hnin ->]|(_ & -> & ->)]; [right|by left].
        assert (d ≠ id o) as Hne.
        { intros ->. apply Hnin, Hkeys. by right. }
        split; [done|]. split; [|done]. intros Hd'. apply Hnin, Hkeys. by left. }
      do 3 f_equal. destruct task'; simpl in *. congruence. }
    destruct He as [[_ ->]|(_ & _ & ->)]; exact Hex.
  - unfold TaskGraphBuilder.addTask.
    rewrite (proj2 (Map_has_false _ _) Hfresh), Hnew. simpl. intros [= <-].
    revert Hnew. unfold Task.new, Task._validateRetryPolicy.
    repeat case_match; naive_solver.
  - exfalso. revert Hnew. unfold Task.new. by repeat case_match.
Qed.

Lemma addTask_failure_state_witness :
  exists task0 pre d post,
    Task.new (task_options "C" (returns JNull) ["A"; "X"; "B"]) = Ok task0 /\
    default [] (dependencies (task_options "C" (returns JNull) ["A"; "X"; "B"]))
      = pre ++ d :: post /\
    Forall (fun x => x ∈ Map_keys (TaskGraphBuilder._tasks two_task_builder) /\
                     x ≠ id (task_options "C" (returns JNull) ["A"; "X"; "B"])) pre /\
    ((d = id (task_options "C" (returns JNull) ["A"; "X"; "B"]) /\
      DependencyNotFound "X" "C" = SelfDependency) \/
     (d ≠ id (task_options "C" (returns JNull) ["A"; "X"; "B"]) /\
      (d ∉ Map_keys (TaskGraphBuilder._tasks two_task_builder)) /\
      DependencyNotFound "X" "C"
        = DependencyNotFound d (id (task_options "C" (returns JNull) ["A"; "X"; "B"])))) /\
    fst (TaskGraphBuilder.addTask two_task_builder
           (task_options "C" (returns JNull) ["A"; "X"; "B"])) =
      TaskGraphBuilder.with_tasks two_task_builder
        (TaskGraphBuilder._tasks two_task_builder ++
           [(id (task_options "C" (returns JNull) ["A"; "X"; "B"]),
             {| Task.options := task_options "C" (returns JNull) ["A"; "X"; "B"];
                Task._dependencies := pre;
                Task._retryPolicy := Task._retryPolicy task0;
                Task._status := Pending |})]).
Proof.
  exact (addTask_failure_state two_task_builder
           (task_options "C" (returns JNull) ["A"; "X"; "B"])
           (DependencyNotFound "X" "C") eq_refl).
Defined.

(** C6, refuted as stated: the call fails on an unknown dependency, and the
    offending task is in the task map afterwards. *)
Lemma addTask_failure_registers :
  snd (TaskGraphBuilder.addTask empty_builder (task_options "B" (returns JNull) ["X"]))
    = Throws (DependencyNotFound "X" "B") /\
  Map_has (TaskGraphBuilder._tasks
             (fst (TaskGraphBuilder.addTask empty_builder
                     (task_options "B" (returns JNull) ["X"])))) "B" = true /\
  fst (TaskGraphBuilder.addTask empty_builder (task_options "B" (returns JNull) ["X"]))
    <> empty_builder.
Proof. repeat split; try done. Qed.

(** ** The dependency graph *)

Lemma dependencies_first_descends tasks ord x y :
  dependencies_first tasks ord ->
  tc (depends_on tasks) x y ->
  forall i, ord !! i = Some x -> exists j, (j < i)%nat /\ ord !! j = Some y.
Proof.
  intros Hfirst. induction 1 as [x y Hxy|x z y Hxz _ IH]; intros i Hi.
  - eauto.
  - destruct (Hfirst i x z Hi Hxz) as (j & Hj & Hz).
    destruct (IH j Hz) as (k & Hk & Hy). exists k. split; [lia | done].
Qed.

(** An order that puts dependencies first and holds every task that has a
    dependency shows that the graph has no cycle. *)
Lemma dependencies_first_acyclic tasks ord :
  (forall x, x ∈ Map_keys tasks -> x ∈ ord) ->
  dependencies_first tasks ord -> acyclic tasks.
Proof.
  intros Hall Hfirst x Hcycle.
  assert (x ∈ ord) as Hx.
  { apply Hall.
    inversion Hcycle as [? ? (t & Ht & _)|? ? ? (t & Ht & _)]; subst;
      apply Map_get_is_Some; eauto. }
  apply list_elem_of_lookup in Hx as [i Hi].
  revert Hi. induction (lt_wf i) as [i _ IH]. intros Hi.
  destruct (dependencies_first_descends _ _ _ _ Hfirst Hcycle i Hi) as (j & Hj & Hxj).
  eauto.
Qed.

Lemma dependencies_first_closed tasks :
  dependencies_first tasks (Map_keys tasks) -> closed tasks.
Proof.
  intros Hfirst x y Hxy.
  assert (x ∈ Map_keys tasks) as Hx.
  { destruct Hxy as (t & Ht & _). apply Map_get_is_Some; eauto. }
  apply list_elem_of_lookup in Hx as [i Hi].
  destruct (Hfirst i x y Hi Hxy) as (j & _ & Hj).
  apply list_elem_of_lookup. eauto.
Qed.

Lemma insertion_ordered_snoc tasks taskId task :
  insertion_ordered tasks ->
  taskId ∉ Map_keys tasks ->
  Forall (fun d => d ∈ Map_keys tasks) (Task._dependencies task) ->
  insertion_ordered (tasks ++ [(taskId, task)]).
Proof.
  intros [Hnd Hfirst] Hfresh Hdeps. split.
  - unfold Map_keys. rewrite fmap_app. simpl. apply NoDup_app.
    split; [done|]. split; [|apply NoDup_singleton].
    intros x Hx Hx'. apply list_elem_of_singleton in Hx'. by subst.
  - intros i x y Hi (t & Ht & Hy).
    unfold Map_keys in Hi. rewrite fmap_app in Hi. simpl in Hi.
    rewrite Map_get_app_fresh in Ht.
    destruct (Map_get tasks x) as [t'|] eqn:Hget.
    + simplify_eq.
      assert (x ∈ Map_keys tasks) as Hx by (apply Map_get_is_Some; eauto).
      apply lookup_app_Some in Hi as [Hi|[Hlen Hi]].
      * destruct (Hfirst i x y Hi) as (j & Hj & Hyj); [by exists t|].
        exists j. split; [done|]. unfold Map_keys. rewrite fmap_app.
        by apply lookup_app_l_Some.
      * apply list_lookup_singleton_Some in Hi as [_ <-].
        exfalso. apply Hfresh. done.
    + case_decide; [|done]. simplify_eq.
      rewrite Forall_forall in Hdeps. apply Hdeps in Hy.
      apply list_elem_of_lookup in Hy as [j Hj].
      exists j. split.
      * apply lookup_lt_Some in Hj. unfold Map_keys in *.
        apply lookup_app_Some in Hi as [Hi|[Hlen Hi]]; [|lia].
        exfalso. apply Hfresh, list_elem_of_lookup. by exists i.
      * unfold Map_keys. rewrite fmap_app. by apply lookup_app_l_Some.
Qed.

Lemma addTask_insertion_ordered b o :
  insertion_ordered (TaskGraphBuilder._tasks b) ->
  insertion_ordered (TaskGraphBuilder._tasks (fst (TaskGraphBuilder.addTask b o))).
Proof.
  intros Hord.
  destruct (decide (id o ∈ Map_keys (TaskGraphBuilder._tasks b))) as [Hin|Hfresh].
  { unfold TaskGraphBuilder.addTask. by rewrite (proj2 (Map_has_true _ _) Hin). }
  destruct (Task.new o) as [task|e'|] eqn:Hnew.
  - rewrite (addTask_unfold_fresh _ _ _ Hfresh Hnew). simpl.
    pose proof (Task_new_Ok _ _ Hnew) as (Ho & Hd & _).
    destruct (TaskGraphBuilder.add_dependencies _ _ _ task) as [task' r] eqn:Hadd.
    simpl. eapply add_dependencies_spec in Hadd; [|by rewrite Ho].
    destruct Hadd as (_ & _ & _ & pre & Hdeps & Hpre & _).
    apply insertion_ordered_snoc; [done..|].
    rewrite Hdeps, Hd. simpl. eapply Forall_impl; [exact Hpre|].
    simpl. intros d [Hin Hne]. unfold Map_keys in Hin.
    rewrite fmap_app, elem_of_app in Hin. destruct Hin as [Hin|Hin]; [done|].
    simpl in Hin. apply list_elem_of_singleton in Hin. done.
  - unfold TaskGraphBuilder.addTask.
    by rewrite (proj2 (Map_has_false _ _) Hfresh), Hnew.
  - unfold TaskGraphBuilder.addTask.
    by rewrite (proj2 (Map_has_false _ _) Hfresh), Hnew.
Qed.

Lemma addTasks_insertion_ordered os b :
  insertion_ordered (TaskGraphBuilder._tasks b) ->
  insertion_ordered (TaskGraphBuilder._tasks (fst (addTasks b os))).
Proof.
  revert b. induction os as [|o os IH]; intros b Hb; simpl; [done|].
  pose proof (addTask_insertion_ordered b o Hb) as Hb'.
  destruct (TaskGraphBuilder.addTask b o) as [b' [[]| |]]; simpl in *; auto.
Qed.

Lemma insertion_ordered_new deps seed :
  insertion_ordered (TaskGraphBuilder._tasks (TaskGraphBuilder.new deps seed)).
Proof.
  split; [apply NoDup_nil_2|]. intros i x y Hi. done.
Qed.

(** ** The topological sort *)

Section TopologicalSort.
Variable tasks : list (string * Task.t).
Variable order0 : list string.

Local Abbreviation K := (list_to_set (Map_keys tasks) : gset string).

Lemma dependencies_first_snoc ord x :
  dependencies_first tasks ord ->
  (forall y, depends_on tasks x y -> y ∈ ord) ->
  dependencies_first tasks (ord ++ [x]).
Proof.
  intros Hfirst Hx i x' y Hi Hdep.
  apply lookup_app_Some in Hi as [Hi|[Hlen Hi]].
  - destruct (Hfirst i x' y Hi Hdep) as (j & Hj & Hy).
    exists j. split; [done|]. by apply lookup_app_l_Some.
  - apply list_lookup_singleton_Some in Hi as [_ <-].
    apply Hx, list_elem_of_lookup in Hdep as [j Hj].
    exists j. split; [|by apply lookup_app_l_Some].
    apply lookup_lt_Some in Hj. lia.
Qed.

Hypothesis Hclosed : closed tasks.
Hypothesis Hacyclic : acyclic tasks.

(** On a closed graph without cycles, [visit] returns, with the task done
    and [temp] as it found it, provided the fuel covers the tasks that are
    not in progress. *)
Lemma visit_returns fuel : forall taskId s,
  taskId ∈ K ->
  temp s ⊆ K ->
  (forall x, x ∈ temp s -> tc (depends_on tasks) x taskId) ->
  (size (K ∖ temp s) < fuel)%nat ->
  sort_inv tasks order0 s ->
  exists s',
    visit fuel tasks taskId s = (s', Ok ()) /\
    sort_inv tasks order0 s' /\ temp s' = temp s /\
    visited s ⊆ visited s' /\ taskId ∈ visited s'.
Proof.
  induction fuel as [|fuel IH]; intros taskId s HinK Htemp Hpath Hfuel Hinv; [lia|].
  simpl. destruct (decide (taskId ∈ temp s)) as [Hin|Hnin].
  { destruct (Hacyclic taskId). auto. }
  destruct (decide (taskId ∈ visited s)) as [Hvis|Hnvis].
  { exists s. repeat split; auto. }
  destruct (Map_get tasks taskId) as [task|] eqn:Hget.
  2: { exfalso. apply Map_get_None in Hget. apply Hget.
       by apply elem_of_list_to_set in HinK. }
  set (s1 := {| visited := visited s; temp := {[taskId]} ∪ temp s; order := order s |}).
  assert (forall ds s1',
    (forall d, d ∈ ds -> d ∈ Task._dependencies task) ->
    sort_inv tasks order0 s1' -> temp s1' = temp s1 -> visited s ⊆ visited s1' ->
    exists s2, for_each (visit fuel tasks) ds s1' = (s2, Ok ()) /\
      sort_inv tasks order0 s2 /\ temp s2 = temp s1 /\ visited s1' ⊆ visited s2 /\
      (forall d, d ∈ ds -> d ∈ visited s2)) as Hloop.
  { induction ds as [|d ds IHds]; intros s1' Hds Hinv1 Htemp1 Hsub; simpl.
    - exists s1'. repeat split; auto. intros d Hd. inversion Hd.
    - assert (depends_on tasks taskId d) as Hdep.
      { exists task. split; [done|]. apply Hds. left. }
      destruct (IH d s1') as (s2 & Hv & Hinv2 & Htemp2 & Hsub2 & Hd2); auto.
      + apply elem_of_list_to_set. eapply Hclosed, Hdep.
      + rewrite Htemp1. simpl. set_solver.
      + rewrite Htemp1. simpl. intros x Hx.
        apply elem_of_union in Hx as [Hx|Hx].
        * apply elem_of_singleton in Hx as ->. by apply tc_once.
        * eapply tc_r; [by apply Hpath | done].
      + rewrite Htemp1. simpl.
        assert (K ∖ ({[taskId]} ∪ temp s) ⊂ K ∖ temp s) as Hlt by set_solver.
        apply subset_size in Hlt. lia.
      + rewrite Hv.
        destruct (IHds s2) as (s3 & Hv3 & Hinv3 & Htemp3 & Hsub3 & Hd3); auto.
        { intros d' Hd'. apply Hds. by right. }
        { congruence. }
        { set_solver. }
        exists s3. repeat split; auto; [set_solver|].
        intros d' Hd'. inversion Hd'; subst; [set_solver | auto]. }
  destruct (Hloop (Task._dependencies task) s1) as (s2 & Hv & Hinv2 & Htemp2 & Hsub2 & Hd2);
    auto.
  { destruct Hinv as (ord & Ho & Hnd & Hvis & Hdisj & HsubK & Hfirst).
    exists ord. repeat split; auto. simpl. set_solver. }
  rewrite Hv. eexists. split; [done|]. simpl.
  destruct Hinv2 as (ord & Ho & Hnd & Hvis & Hdisj & HsubK & Hfirst).
  assert (taskId ∉ visited s2) as Hfresh.
  { rewrite Htemp2 in Hdisj. simpl in Hdisj. set_solver. }
  repeat split.
  - exists (ord ++ [taskId]). simpl. repeat split.
    + rewrite Ho. by rewrite app_assoc.
    + apply NoDup_app. split; [done|]. split; [|apply NoDup_singleton].
      intros x Hx Hx'. apply list_elem_of_singleton in Hx' as ->.
      apply Hfresh. rewrite Hvis. by apply elem_of_list_to_set.
    + rewrite Hvis, list_to_set_app_L. simpl. set_solver.
    + rewrite Htemp2. simpl. rewrite Htemp2 in Hdisj. simpl in Hdisj. set_solver.
    + set_solver.
    + apply dependencies_first_snoc; [done|].
      intros y (t & Ht & Hy). simplify_eq.
      apply Hd2 in Hy. rewrite Hvis in Hy. by apply elem_of_list_to_set in Hy.
  - rewrite Htemp2. simpl. set_solver.
  - simpl in Hsub2. set_solver.
  - set_solver.
Qed.


Lemma sort_loop_returns : forall ks s,
  (forall k, k ∈ ks -> k ∈ Map_keys tasks) ->
  NoDup (Map_keys tasks) ->
  sort_inv tasks order0 s -> temp s = ∅ ->
  exists s',
    for_each (fun taskId s =>
                if decide (taskId ∈ visited s) then (s, Ok ())
                else visit (S (length tasks)) tasks taskId s) ks s = (s', Ok ()) /\
    sort_inv tasks order0 s' /\ temp s' = ∅ /\
    visited s ⊆ visited s' /\ (forall k, k ∈ ks -> k ∈ visited s').
Proof.
  induction ks as [|k ks IH]; intros s Hks Hnd Hinv Htemp; cbn [for_each].
  - exists s. repeat split; auto. intros k Hk. inversion Hk.
  - assert (exists s1, (if decide (k ∈ visited s) then (s, Ok ())
                        else visit (S (length tasks)) tasks k s) = (s1, Ok ()) /\
              sort_inv tasks order0 s1 /\ temp s1 = ∅ /\
              visited s ⊆ visited s1 /\ k ∈ visited s1)
      as (s1 & -> & Hinv1 & Htemp1 & Hsub1 & Hk1).
    { destruct (decide (k ∈ visited s)) as [Hvis|Hnvis].
      { exists s. repeat split; auto. }
      destruct (visit_returns (S (length tasks)) k s) as (s1 & Hv & ? & Ht & ? & ?);
        auto.
      - apply elem_of_list_to_set, Hks. left.
      - rewrite Htemp. set_solver.
      - rewrite Htemp. set_solver.
      - rewrite Htemp, difference_empty_L, size_list_to_set by done.
        unfold Map_keys. rewrite length_fmap. lia.
      - exists s1. repeat split; auto. congruence. }
    destruct (IH s1) as (s2 & Hfor & Hinv2 & Htemp2 & Hsub2 & Hks2); auto.
    { intros k' Hk'. apply Hks. by right. }
    exists s2. repeat split; auto; [set_solver|].
    intros k' Hk'. inversion Hk'; subst; [set_solver | auto].
Qed.

Lemma topologicalSort_returns_on (b : TaskGraphBuilder.t) :
  TaskGraphBuilder._tasks b = tasks ->
  TaskGraphBuilder._topologicalOrder b = order0 ->
  NoDup (Map_keys tasks) ->
  exists ord,
    TaskGraphBuilder._topologicalSort b =
      (TaskGraphBuilder.with_order b (order0 ++ ord), Ok ()) /\
    ord ≡ₚ Map_keys tasks /\ dependencies_first tasks ord.
Proof.
  intros Htasks Horder Hnd. unfold TaskGraphBuilder._topologicalSort.
  rewrite Htasks, Horder.
  destruct (sort_loop_returns (Map_keys tasks)
              {| visited := ∅; temp := ∅; order := order0 |})
    as (s' & -> & (ord & Ho & Hndo & Hvis & _ & HsubK & Hfirst) & _ & _ & Hall);
    auto.
  { exists []. rewrite app_nil_r. simpl. repeat split; auto.
    all: try apply NoDup_nil_2; try set_solver.
    intros i x y Hi. done. }
  exists ord. rewrite Ho. repeat split; auto.
  apply NoDup_Permutation; auto. intros x. split; intros Hx.
  - assert (x ∈ visited s') as Hv by (rewrite Hvis; set_solver).
    apply HsubK in Hv. set_solver.
  - apply Hall in Hx. rewrite Hvis in Hx. set_solver.
Qed.

End TopologicalSort.

(** ** C1: [build] on a graph without cycles *)

(** C1. For every task graph (a map with unique ids whose dependencies name
    tasks of the map) that has no dependency cycle and at least one task,
    [build] succeeds: it hands the runner the task map and the order it
    appends to [_topologicalOrder], which holds every task exactly once and
    every dependency of a task strictly before that task. *)
Theorem build_acyclic_topological (b : TaskGraphBuilder.t) :
  NoDup (Map_keys (TaskGraphBuilder._tasks b)) ->
  closed (TaskGraphBuilder._tasks b) ->
  acyclic (TaskGraphBuilder._tasks b) ->
  TaskGraphBuilder.size b ≠ 0%nat ->
  exists b' r ord,
    TaskGraphBuilder.build b = (b', Ok r) /\
    TaskGraphRunner._tasks r = TaskGraphBuilder._tasks b /\
    TaskGraphRunner._topologicalOrder r =
      TaskGraphBuilder._topologicalOrder b ++ ord /\
    ord ≡ₚ Map_keys (TaskGraphBuilder._tasks b) /\
    forall i x y,
      ord !! i = Some x -> depends_on (TaskGraphBuilder._tasks b) x y ->
      exists j, (j < i)%nat /\ ord !! j = Some y.
Proof.
  intros Hnd Hclosed Hacyclic Hsize. unfold TaskGraphBuilder.build.
  rewrite decide_False by done.
  destruct (topologicalSort_returns_on _ _ Hclosed Hacyclic b eq_refl eq_refl Hnd)
    as (ord & -> & Hperm & Hfirst).
  eexists _, _, ord. split; [done|]. simpl. auto.
Qed.

Lemma insertion_ordered_graph tasks :
  insertion_ordered tasks ->
  NoDup (Map_keys tasks) /\ closed tasks /\ acyclic tasks.
Proof.
  intros [Hnd Hfirst]. split; [done|]. split.
  - by apply dependencies_first_closed.
  - by apply dependencies_first_acyclic with (ord := Map_keys tasks).
Qed.

Lemma build_acyclic_topological_witness :
  exists b' r ord,
    TaskGraphBuilder.build two_task_builder = (b', Ok r) /\
    TaskGraphRunner._tasks r = TaskGraphBuilder._tasks two_task_builder /\
    TaskGraphRunner._topologicalOrder r =
      TaskGraphBuilder._topologicalOrder two_task_builder ++ ord /\
    ord ≡ₚ Map_keys (TaskGraphBuilder._tasks two_task_builder) /\
    forall i x y,
      ord !! i = Some x ->
      depends_on (TaskGraphBuilder._tasks two_task_builder) x y ->
      exists j, (j < i)%nat /\ ord !! j = Some y.
Proof.
  assert (insertion_ordered (TaskGraphBuilder._tasks two_task_builder)) as Hord.
  { apply addTasks_insertion_ordered, insertion_ordered_new. }
  apply insertion_ordered_graph in Hord as (Hnd & Hclosed & Hacyclic).
  apply (build_acyclic_topological two_task_builder Hnd Hclosed Hacyclic).
  vm_compute. lia.
Defined.

(** ** C8: no cycle error through the builder *)

(** The sort succeeds on every task map that [addTask] can have built. *)
Lemma topologicalSort_insertion_ordered (b : TaskGraphBuilder.t) :
  insertion_ordered (TaskGraphBuilder._tasks b) ->
  snd (TaskGraphBuilder._topologicalSort b) = Ok ().
Proof.
  intros Hord. apply insertion_ordered_graph in Hord as (Hnd & Hclosed & Hacyclic).
  destruct (topologicalSort_returns_on _ _ Hclosed Hacyclic b eq_refl eq_refl Hnd)
    as (ord & -> & _). done.
Qed.

(** C8. For every builder made by a chain of successful [addTask] calls, the
    topological sort returns normally, so [build] never throws the
    circular-dependency error (nor any error of the sort). *)
Theorem build_never_circular (deps : jsval) (seed : ContextSeed)
    (os : list TaskOptions) :
  snd (addTasks (TaskGraphBuilder.new deps seed) os) = Ok () ->
  snd (TaskGraphBuilder._topologicalSort
         (fst (addTasks (TaskGraphBuilder.new deps seed) os))) = Ok () /\
  forall taskId,
    snd (TaskGraphBuilder.build
           (fst (addTasks (TaskGraphBuilder.new deps seed) os)))
      <> Throws (CircularDependency taskId).
Proof.
  intros _.
  assert (snd (TaskGraphBuilder._topologicalSort
            (fst (addTasks (TaskGraphBuilder.new deps seed) os))) = Ok ()) as Hsort.
  { apply topologicalSort_insertion_ordered, addTasks_insertion_ordered,
      insertion_ordered_new. }
  split; [done|]. intros taskId. unfold TaskGraphBuilder.build.
  case_decide; [done|].
  destruct (TaskGraphBuilder._topologicalSort _) as [b' r]. simpl in Hsort.
  by subst r.
Qed.

Lemma build_never_circular_witness :
  snd (TaskGraphBuilder._topologicalSort two_task_builder) = Ok () /\
  forall taskId,
    snd (TaskGraphBuilder.build two_task_builder)
      <> Throws (CircularDependency taskId).
Proof.
  exact (build_never_circular (JObj []) (SeedValue JUndefined)
           [task_options "A" (returns (JNum 1)) [];
            task_options "B" (returns (JNum 2)) ["A"]] eq_refl).
Defined.

(** ** The fuel of [visit] is enough on every task map *)

Lemma size_list_to_set_le (l : list string) :
  (size (list_to_set l : gset string) <= length l)%nat.
Proof.
  induction l as [|x l IH].
  - by rewrite list_to_set_nil, size_empty.
  - rewrite list_to_set_cons, size_union_alt, size_singleton. simpl.
    assert (size (list_to_set l ∖ {[x]} : gset string) <= size (list_to_set l : gset string))%nat.
    { apply subseteq_size. set_solver. }
    lia.
Qed.

Lemma visit_fuel_enough tasks fuel : forall taskId s,
  temp s ⊆ list_to_set (Map_keys tasks) ->
  (size (list_to_set (Map_keys tasks) ∖ temp s) < fuel)%nat ->
  snd (visit fuel tasks taskId s) <> OutOfFuel /\
  (snd (visit fuel tasks taskId s) = Ok () ->
   temp (fst (visit fuel tasks taskId s)) = temp s).
Proof.
  induction fuel as [|fuel IH]; intros taskId s Htemp Hfuel; [lia|].
  simpl. destruct (decide (taskId ∈ temp s)) as [Hin|Hnin]; [done|].
  destruct (decide (taskId ∈ visited s)) as [Hvis|Hnvis]; [done|].
  destruct (Map_get tasks taskId) as [task|] eqn:Hget; [|done].
  assert (taskId ∈ (list_to_set (Map_keys tasks) : gset string)) as HinK.
  { apply elem_of_list_to_set, Map_get_is_Some. eauto. }
  set (s1 := {| visited := visited s; temp := {[taskId]} ∪ temp s; order := order s |}).
  assert (forall ds s1', temp s1' = temp s1 ->
    snd (for_each (visit fuel tasks) ds s1') <> OutOfFuel /\
    (snd (for_each (visit fuel tasks) ds s1') = Ok () ->
     temp (fst (for_each (visit fuel tasks) ds s1')) = temp s1)) as Hloop.
  { induction ds as [|d ds IHds]; intros s1' Htemp1; simpl; [done|].
    destruct (IH d s1') as [Hne Hok].
    - rewrite Htemp1. simpl. set_solver.
    - rewrite Htemp1. simpl.
      assert (list_to_set (Map_keys tasks) ∖ ({[taskId]} ∪ temp s)
                ⊂ list_to_set (Map_keys tasks) ∖ temp s) as Hlt by set_solver.
      apply subset_size in Hlt. lia.
    - destruct (visit fuel tasks d s1') as [s2 [[]|e|]]; simpl in *; [|done|done].
      apply IHds. rewrite Hok; done. }
  destruct (Hloop (Task._dependencies task) s1 eq_refl) as [Hne Hok].
  destruct (for_each (visit fuel tasks) (Task._dependencies task) s1)
    as [s2 [[]|e|]]; simpl in *; [|done|done].
  split; [done|]. intros _. rewrite Hok by done. set_solver.
Qed.

(** [_topologicalSort] and [build] always return or throw. *)
Lemma topologicalSort_total (b : TaskGraphBuilder.t) :
  snd (TaskGraphBuilder._topologicalSort b) <> OutOfFuel.
Proof.
  unfold TaskGraphBuilder._topologicalSort.
  set (tasks := TaskGraphBuilder._tasks b).
  set (body := fun taskId s => if decide (taskId ∈ visited s) then (s, Ok ())
                               else visit (S (length tasks)) tasks taskId s).
  assert (forall ks s, temp s = ∅ ->
    snd (for_each body ks s) <> OutOfFuel /\
    (snd (for_each body ks s) = Ok () -> temp (fst (for_each body ks s)) = ∅))
    as Hloop.
  { induction ks as [|k ks IH]; intros s Htemp; cbn [for_each]; [done|].
    assert (snd (body k s) <> OutOfFuel /\
            (snd (body k s) = Ok () -> temp (fst (body k s)) = ∅)) as [Hne Hok].
    { unfold body. case_decide; [done|].
      destruct (visit_fuel_enough tasks (S (length tasks)) k s) as [Hne Hok].
      - rewrite Htemp. set_solver.
      - rewrite Htemp, difference_empty_L.
        pose proof (size_list_to_set_le (Map_keys tasks)) as Hle.
        unfold Map_keys in Hle at 2. rewrite length_fmap in Hle. lia.
      - split; [done|]. intros Hr. rewrite Hok; done. }
    destruct (body k s) as [s1 [[]|e|]]; simpl in *; [|done|done].
    apply IH. auto. }
  destruct (Hloop (Map_keys tasks) {| visited := ∅; temp := ∅;
              order := TaskGraphBuilder._topologicalOrder b |} eq_refl) as [Hne _].
  destruct (for_each body _ _) as [s r]. done.
Qed.

Lemma build_total (b : TaskGraphBuilder.t) :
  snd (TaskGraphBuilder.build b) <> OutOfFuel.
Proof.
  unfold TaskGraphBuilder.build. case_decide; [done|].
  pose proof (topologicalSort_total b) as Hne.
  destruct (TaskGraphBuilder._topologicalSort b) as [b' [[]|e|]]; done.
Qed.

(** ** C3: a task whose operation always throws *)

Lemma set_status_set_status s s' this :
  Task.set_status s (Task.set_status s' this) = Task.set_status s this.
Proof. done. Qed.

Lemma filter_flat_map {A B : Type} (P : B -> Prop) `{!forall x, Decision (P x)}
    (f : A -> list B) (l : list A) :
  filter P (flat_map f l) = flat_map (fun x => filter P (f x)) l.
Proof.
  induction l as [|x l IH]; simpl; [done|]. by rewrite filter_app, IH.
Qed.

(** A handler whose own exception, if any, can be put in the message of
    line 325 lets [run] reach line 327. *)
Lemma handler_rethrows_None (this : Task.t) (deps : jsval) (ctx : Ctx) :
  (forall h error error2,
     errorHandler (Task.options this) = Some h ->
     h error deps ctx = Thrown error2 -> template_throws error2 = None) ->
  forall error, Task.handler_rethrows this deps ctx error = None.
Proof.
  intros Hh error. unfold Task.handler_rethrows.
  destruct (errorHandler (Task.options this)) as [h|] eqn:Hhandler; [|done].
  destruct (h error deps ctx) as [v|error2] eqn:Hcall; [done|]. eauto.
Qed.

Lemma run_loop_always_throws (this : Task.t) (deps : jsval) (ctx : Ctx)
    (errs : nat -> thrown) (n : nat) :
  maxRetries (Task._retryPolicy this) = Z.of_nat n ->
  (forall k, execute (Task.options this) deps ctx k = Thrown (errs k)) ->
  (forall k, template_throws (errs k) = None) ->
  (forall error, Task.handler_rethrows this deps ctx error = None) ->
  forall iterations attempt st,
    (attempt + iterations = n + 1)%nat -> (0 < iterations)%nat ->
    Task.run_loop iterations attempt (Task.set_status st this) deps ctx =
    (flat_map (retried_attempt this deps ctx errs) (seq attempt (iterations - 1))
       ++ last_attempt this deps ctx errs n,
     Task.set_status Failed this, Thrown (to_error (errs n))).
Proof.
  intros Hn Hthrows Hconv Hhandler. induction iterations as [|iterations IH];
    intros attempt st Hsum Hpos; [lia|].
  cbn [Task.run_loop]. simpl Task.options. rewrite Hthrows, Hconv.
  simpl Task._retryPolicy. rewrite Hn.
  destruct (decide (Z.of_nat attempt = Z.of_nat n)) as [Heq|Hne].
  - assert (attempt = n) as -> by lia. assert (iterations = 0%nat) as -> by lia.
    change (Task.handler_rethrows (Task.set_status st this))
      with (Task.handler_rethrows this).
    rewrite Hhandler. simpl. done.
  - rewrite set_status_set_status.
    rewrite (IH (S attempt) Running) by lia.
    replace (S iterations - 1)%nat with (S (iterations - 1)) by lia.
    simpl. by rewrite Hn.
Qed.

(** What C3 says holds of every task whose operation and handler throw
    values that the messages of [run] can hold: with the retry policy
    {maxRetries: n, retryDelayMs: d}, [run] makes n failed attempts, each
    followed by the delay d, then the last attempt; so the operation is
    called n + 1 times, with one delay d between consecutive calls. After
    the last attempt the error handler, when the task has one, is called
    exactly once, with the last value thrown (wrapped in an Error if it is
    not one); without a handler the error is logged instead. The status is
    then set to failed, and [run] rejects with that error. *)
Lemma run_always_throws_convertible (this : Task.t) (deps : jsval) (ctx : Ctx)
    (errs : nat -> thrown) (n : nat) (d : Z) :
  Task._retryPolicy this = {| maxRetries := Z.of_nat n; retryDelayMs := d |} ->
  (forall k, execute (Task.options this) deps ctx k = Thrown (errs k)) ->
  (forall k, template_throws (errs k) = None) ->
  (forall h error error2,
     errorHandler (Task.options this) = Some h ->
     h error deps ctx = Thrown error2 -> template_throws error2 = None) ->
  let '(effects, this', result) := Task.run this deps ctx in
  effects = flat_map (retried_attempt this deps ctx errs) (seq 0 n)
              ++ last_attempt this deps ctx errs n /\
  filter is_execute effects = (fun k => EExecute deps ctx k) <$> seq 0 (n + 1) /\
  filter is_sleep effects = replicate n (ESleep d) /\
  filter is_handler_call effects =
    match errorHandler (Task.options this) with
    | Some _ => [EErrorHandler (to_error (errs n)) deps ctx]
    | None => []
    end /\
  Task._status this' = Failed /\
  result = Thrown (to_error (errs n)).
Proof.
  intros Hpolicy Hthrows Hconv Hhandler. unfold Task.run. rewrite Hpolicy.
  simpl maxRetries.
  replace (Z.to_nat (Z.of_nat n + 1)) with (n + 1)%nat by lia.
  assert (maxRetries (Task._retryPolicy this) = Z.of_nat n) as Hn
    by (by rewrite Hpolicy).
  pose proof (run_loop_always_throws this deps ctx errs n Hn Hthrows Hconv
                (handler_rethrows_None this deps ctx Hhandler)
                (n + 1)%nat 0%nat (Task._status this)) as Hrun.
  replace (Task.set_status (Task._status this) this) with this in Hrun
    by (by destruct this).
  rewrite Hrun by lia. clear Hrun.
  replace (n + 1 - 1)%nat with n by lia.
  split; [done|].
  assert (forall l, filter is_execute (last_attempt this deps ctx errs l)
                    = [EExecute deps ctx l]
                 /\ filter is_sleep (last_attempt this deps ctx errs l) = []
                 /\ filter is_handler_call (last_attempt this deps ctx errs l) =
                    match errorHandler (Task.options this) with
                    | Some _ => [EErrorHandler (to_error (errs l)) deps ctx]
                    | None => []
                    end) as Hlast.
  { intros l. unfold last_attempt, Task.exhausted_prefix, Task.handler_suffix.
    destruct (errorHandler (Task.options this)) as [h|]; [|done].
    destruct (h _ _ _) as [v|error2]; [done|]. by destruct (template_throws error2). }
  destruct (Hlast n) as (Hl1 & Hl2 & Hl3).
  rewrite !filter_app, !filter_flat_map, Hl1, Hl2, Hl3.
  split; [|split; [|split; [|done]]].
  - rewrite seq_app, fmap_app. by f_equal.
  - rewrite app_nil_r.
    rewrite (flat_map_ext _ (fun _ => [ESleep d])).
    + generalize 0%nat. clear. induction n as [|m IH]; intros a; simpl; [done|].
      by rewrite IH.
    + intros a. unfold retried_attempt. by rewrite Hpolicy.
  - rewrite (flat_map_ext _ (fun _ => [])); [|done].
    rewrite <- (app_nil_l (match errorHandler _ with Some _ => _ | None => _ end)) at 2.
    f_equal. generalize 0%nat. clear. induction n as [|m IH]; intros a; simpl; [done|].
    by rewrite IH.
Qed.

Lemma run_always_throws_convertible_example :
  let '(effects, this', result) := Task.run failing_task JNull ∅ in
  effects = flat_map (retried_attempt failing_task JNull ∅ (fun _ => ErrorObj "boom"))
              (seq 0 2)
              ++ last_attempt failing_task JNull ∅ (fun _ => ErrorObj "boom") 2 /\
  filter is_execute effects = (fun k => EExecute JNull ∅ k) <$> seq 0 (2 + 1) /\
  filter is_sleep effects = replicate 2 (ESleep 10) /\
  filter is_handler_call effects =
    match errorHandler (Task.options failing_task) with
    | Some _ => [EErrorHandler (to_error (ErrorObj "boom")) JNull ∅]
    | None => []
    end /\
  Task._status this' = Failed /\
  result = Thrown (to_error (ErrorObj "boom")).
Proof.
  apply (run_always_throws_convertible failing_task JNull ∅
           (fun _ => ErrorObj "boom") 2 10 eq_refl (fun k => eq_refl)
           (fun k => eq_refl)).
  intros h error error2 [= <-]. done.
Defined.

(** C3. The claim fails on the code for a task whose operation throws a
    value that a template literal cannot convert to a string. The operation
    of [symbol_task] always throws a Symbol, its retry policy is
    {maxRetries: 2, retryDelayMs: 10} and it has an error handler: [run]
    calls the operation once instead of three times, waits for no delay,
    never calls the handler, leaves the status "running" instead of
    "failed", and rejects with the TypeError of the conversion (line 330). *)
Theorem run_throwing_symbol :
  Task._retryPolicy symbol_task = {| maxRetries := 2; retryDelayMs := 10 |} /\
  (forall k, execute (Task.options symbol_task) JNull ∅ k
             = Thrown (Unprintable symbol_conversion)) /\
  is_Some (errorHandler (Task.options symbol_task)) /\
  let '(effects, this', result) := Task.run symbol_task JNull ∅ in
  effects = [EStatus Running; EExecute JNull ∅ 0] /\
  filter is_execute effects = [EExecute JNull ∅ 0] /\
  filter is_sleep effects = [] /\
  filter is_handler_call effects = [] /\
  Task._status this' = Running /\
  result = Thrown symbol_conversion.
Proof. split; [done|]. split; [done|]. split; [by eexists|]. done. Qed.

(** ** C9: the status of a task *)

Lemma status_writes_app l1 l2 :
  status_writes (l1 ++ l2) = status_writes l1 ++ status_writes l2.
Proof.
  induction l1 as [|e l1 IH]; simpl; [done|]. destruct e; simpl; by rewrite ?IH.
Qed.

Lemma status_writes_exhausted this deps ctx attempt err :
  status_writes (Task.exhausted_prefix this deps ctx attempt err
                   ++ Task.handler_suffix this deps ctx (to_error err)) = [].
Proof.
  unfold Task.exhausted_prefix, Task.handler_suffix.
  destruct (errorHandler (Task.options this)) as [h|]; [|done].
  destruct (h _ _ _) as [v|error2]; [done|]. by destruct (template_throws error2).
Qed.

Lemma status_or_execute_exhausted this deps ctx attempt err :
  filter is_status_or_execute
    (Task.exhausted_prefix this deps ctx attempt err
       ++ Task.handler_suffix this deps ctx (to_error err)) = [].
Proof.
  unfold Task.exhausted_prefix, Task.handler_suffix.
  destruct (errorHandler (Task.options this)) as [h|]; [|done].
  destruct (h _ _ _) as [v|error2]; [done|]. by destruct (template_throws error2).
Qed.

Lemma run_loop_status_writes deps ctx : forall iterations attempt this,
  (forall a err, execute (Task.options this) deps ctx a = Thrown err ->
                 template_throws err = None) ->
  (forall error, Task.handler_rethrows this deps ctx error = None) ->
  (0 < iterations)%nat ->
  Z.of_nat (attempt + iterations) = maxRetries (Task._retryPolicy this) + 1 ->
  let '(effects, this', result) := Task.run_loop iterations attempt this deps ctx in
  exists k, (attempt <= k < attempt + iterations)%nat /\
    (forall a, (attempt <= a < k)%nat ->
               exists err, execute (Task.options this) deps ctx a = Thrown err) /\
    filter is_status_or_execute effects =
      flat_map (fun a => [EStatus Running; EExecute deps ctx a])
        (seq attempt (k - attempt + 1))
      ++ [EStatus (Task._status this')] /\
    status_writes effects = replicate (k - attempt + 1) Running ++ [Task._status this'] /\
    match execute (Task.options this) deps ctx k with
    | Returned v => Task._status this' = Completed /\ result = Returned v
    | Thrown err =>
        Z.of_nat k = maxRetries (Task._retryPolicy this) /\
        Task._status this' = Failed /\ result = Thrown (to_error err)
    end.
Proof.
  induction iterations as [|iterations IH];
    intros attempt this Hconv Hhandler Hpos Hsum; [lia|].
  cbn [Task.run_loop].
  destruct (execute (Task.options this) deps ctx attempt) as [v|err] eqn:Hexec.
  - exists attempt. split; [lia|]. split; [intros a Ha; lia|].
    replace (attempt - attempt + 1)%nat with 1%nat by lia.
    rewrite Hexec. done.
  - rewrite (Hconv _ _ Hexec).
    destruct (decide (Z.of_nat attempt = maxRetries (Task._retryPolicy this)))
      as [Heq|Hne].
    + rewrite Hhandler.
      exists attempt. split; [lia|]. split; [intros a Ha; lia|].
      replace (attempt - attempt + 1)%nat with 1%nat by lia.
      rewrite Hexec.
      change ([EStatus Running; EExecute deps ctx attempt] ++ ?l)
        with (EStatus Running :: EExecute deps ctx attempt :: l).
      rewrite app_assoc. split; [|split; [|done]].
      * rewrite !filter_cons_True, filter_app, status_or_execute_exhausted by done.
        done.
      * cbn [status_writes]. rewrite status_writes_app.
        by rewrite status_writes_exhausted.
    + specialize (IH (S attempt) (Task.set_status Running this) Hconv Hhandler).
      destruct (Task.run_loop iterations (S attempt) _ deps ctx)
        as [[effects this'] result].
      destruct IH as (k & Hk & Hbefore & Hf & Hw & Hres); [lia | simpl; lia |].
      exists k. split; [lia|]. split.
      * intros a Ha. destruct (decide (a = attempt)) as [->|Hna]; [eauto|].
        apply Hbefore. lia.
      * replace (k - attempt + 1)%nat with (S (k - S attempt + 1)) by lia.
        split; [|split; [|exact Hres]].
        -- cbn [app]. rewrite !filter_cons_True by done.
           rewrite !filter_cons_False by (by intros []).
           rewrite Hf. done.
        -- simpl. by rewrite Hw.
Qed.

(** C9 (amended). One call of [run] (with a valid retry policy) in which
    the values thrown can be put in the messages of [run]. Whatever the
    status was at the call, it is written "running" before each call of the
    operation, up to the first attempt [k] that returns or, if none
    returns, up to the last of the maxRetries + 1 attempts; then it is
    written once more: "completed" if attempt [k] returned, and "failed" if
    it threw, in which case every one of the maxRetries + 1 attempts threw.
    That call writes nothing after the terminal value. *)
Theorem run_status_writes (this : Task.t) (deps : jsval) (ctx : Ctx) :
  0 <= maxRetries (Task._retryPolicy this) ->
  (forall a err, execute (Task.options this) deps ctx a = Thrown err ->
                 template_throws err = None) ->
  (forall h error error2,
     errorHandler (Task.options this) = Some h ->
     h error deps ctx = Thrown error2 -> template_throws error2 = None) ->
  let '(effects, this', result) := Task.run this deps ctx in
  exists k,
    (k <= Z.to_nat (maxRetries (Task._retryPolicy this)))%nat /\
    (forall a, (a < k)%nat ->
               exists err, execute (Task.options this) deps ctx a = Thrown err) /\
    filter is_status_or_execute effects =
      flat_map (fun a => [EStatus Running; EExecute deps ctx a]) (seq 0 (k + 1))
      ++ [EStatus (Task._status this')] /\
    status_writes effects = replicate (k + 1) Running ++ [Task._status this'] /\
    match execute (Task.options this) deps ctx k with
    | Returned v => Task._status this' = Completed /\ result = Returned v
    | Thrown err =>
        k = Z.to_nat (maxRetries (Task._retryPolicy this)) /\
        Task._status this' = Failed /\ result = Thrown (to_error err)
    end.
Proof.
  intros Hvalid Hconv Hhandler. unfold Task.run.
  pose proof (run_loop_status_writes deps ctx
                (Z.to_nat (maxRetries (Task._retryPolicy this) + 1)) 0%nat this
                Hconv (handler_rethrows_None this deps ctx Hhandler)
                ltac:(lia) ltac:(lia)) as Hrun.
  destruct (Task.run_loop _ 0 this deps ctx) as [[effects this'] result].
  destruct Hrun as (k & Hk & Hbefore & Hf & Hw & Hres).
  rewrite Nat.sub_0_r in Hf, Hw.
  exists k. split; [lia|]. split; [intros a Ha; apply Hbefore; lia|].
  split; [done|]. split; [done|].
  destruct (execute (Task.options this) deps ctx k); [done|].
  destruct Hres as (? & ? & ?). repeat split; [lia|done..].
Qed.

Lemma run_status_writes_witness :
  let '(effects, this', result) := Task.run flaky_task JNull ∅ in
  exists k,
    (k <= Z.to_nat (maxRetries (Task._retryPolicy flaky_task)))%nat /\
    (forall a, (a < k)%nat ->
               exists err, execute (Task.options flaky_task) JNull ∅ a = Thrown err) /\
    filter is_status_or_execute effects =
      flat_map (fun a => [EStatus Running; EExecute JNull ∅ a]) (seq 0 (k + 1))
      ++ [EStatus (Task._status this')] /\
    status_writes effects = replicate (k + 1) Running ++ [Task._status this'] /\
    match execute (Task.options flaky_task) JNull ∅ k with
    | Returned v => Task._status this' = Completed /\ result = Returned v
    | Thrown err =>
        k = Z.to_nat (maxRetries (Task._retryPolicy flaky_task)) /\
        Task._status this' = Failed /\ result = Thrown (to_error err)
    end.
Proof.
  apply (run_status_writes flaky_task JNull ∅).
  - simpl. lia.
  - intros a err. simpl. unfold flaky. case_match; [|done]. by intros [= <-].
  - intros h error error2. simpl. by intros [= <-].
Defined.

(** The same holds of a task all of whose attempts fail. *)
Lemma run_status_writes_failing :
  status_writes (fst (fst (Task.run failing_task JNull ∅)))
    = [Running; Running; Running; Failed] /\
  status_writes (fst (fst (Task.run flaky_task JNull ∅)))
    = [Running; Running; Completed].
Proof. done. Qed.

(** A thrown value that the messages cannot hold is outside the statement:
    for a thrown Symbol the call writes "running" once and no terminal
    value. *)
Lemma run_status_writes_symbol :
  status_writes (fst (fst (Task.run symbol_task JNull ∅))) = [Running] /\
  Task._status (snd (fst (Task.run symbol_task JNull ∅))) = Running.
Proof. done. Qed.

(** C9, refuted as stated: the runner calls [run] on the same task object
    at every run of the graph, and a task that one run left "completed" is
    set back to "running" by the next. *)
Lemma run_again_from_terminal :
  Task._status (task_after_run fresh_task) = Completed /\
  status_writes (fst (fst (Task.run (task_after_run fresh_task) (JObj []) ∅)))
    = [Running; Completed].
Proof. done. Qed.

(** ** [run] as the event loop runs it *)

(** Resuming [run] at each of its [await]s until its promise settles does
    what [Task.run] says, and twice the number of iterations is enough
    fuel. *)
Local Ltac assoc_done := rewrite <- ?app_assoc; simpl; done.

Lemma drive_enter deps ctx : forall iterations attempt this acc fuel,
  iterations = Z.to_nat (maxRetries (Task._retryPolicy this) + 1 - Z.of_nat attempt) ->
  (2 * iterations <= fuel)%nat ->
  (let '(effects, this', pc) := Task.enter attempt this deps ctx in
   Task.drive fuel (acc ++ effects, this', pc) deps ctx) =
  (let '(effects, this', o) := Task.run_loop iterations attempt this deps ctx in
   Some (acc ++ effects, this', o)).
Proof.
  induction iterations as [|iterations IH]; intros attempt this acc fuel Hit Hfuel.
  - unfold Task.enter.
    destruct (Z.ltb_spec (Z.of_nat attempt) (maxRetries (Task._retryPolicy this) + 1));
      [lia|].
    simpl. by destruct fuel.
  - unfold Task.enter.
    destruct (Z.ltb_spec (Z.of_nat attempt) (maxRetries (Task._retryPolicy this) + 1));
      [|lia].
    destruct fuel as [|fuel]; [lia|]. cbn [Task.drive Task.resume Task.run_loop].
    simpl Task.options. simpl Task._retryPolicy.
    destruct (execute (Task.options this) deps ctx attempt) as [v|err].
    { destruct fuel; simpl; assoc_done. }
    destruct (template_throws err) as [conversion|].
    { destruct fuel; simpl; assoc_done. }
    destruct (decide (Z.of_nat attempt = maxRetries (Task._retryPolicy this)))
      as [Heq|Hne].
    + unfold Task.handler_rethrows, Task.handler_suffix, Task.exhausted_prefix.
      simpl Task.options.
      destruct (errorHandler (Task.options this)) as [h|] eqn:Hh.
      * destruct fuel as [|fuel]; [lia|]. cbn [Task.drive Task.resume].
        unfold Task.handler_rethrows, Task.handler_suffix. simpl Task.options.
        rewrite Hh.
        destruct (h (to_error err) deps ctx) as [v|error2].
        { destruct fuel; simpl; assoc_done. }
        destruct (template_throws error2); destruct fuel; simpl; assoc_done.
      * destruct fuel; simpl; assoc_done.
    + destruct fuel as [|fuel]; [lia|]. cbn [Task.drive Task.resume].
      specialize (IH (S attempt) (Task.set_status Running this)
                    ((acc ++ [EStatus Running; EExecute deps ctx attempt]) ++
                       [EConsoleError (MsgRetrying (attempt + 1)
                          (maxRetries (Task._retryPolicy this)) err);
                        ESleep (retryDelayMs (Task._retryPolicy this))]) fuel).
      simpl Task._retryPolicy in IH.
      destruct (Task.enter (S attempt) (Task.set_status Running this) deps ctx)
        as [[effects' this''] pc'].
      rewrite IH by lia.
      destruct (Task.run_loop iterations (S attempt) _ deps ctx) as [[effects this'] o].
      assoc_done.
Qed.

Lemma drive_start_run (this : Task.t) (deps : jsval) (ctx : Ctx) :
  Task.drive (2 * Z.to_nat (maxRetries (Task._retryPolicy this) + 1))
    (Task.start this deps ctx) deps ctx = Some (Task.run this deps ctx).
Proof.
  pose proof (drive_enter deps ctx
                (Z.to_nat (maxRetries (Task._retryPolicy this) + 1)) 0%nat this []
                (2 * Z.to_nat (maxRetries (Task._retryPolicy this) + 1))%nat
                ltac:(f_equal; lia) ltac:(lia)) as H.
  unfold Task.start, Task.run.
  destruct (Task.enter 0 this deps ctx) as [[effects this'] pc].
  destruct (Task.run_loop _ 0 this deps ctx) as [[effects1 this1] o].
  exact H.
Qed.

(** ** C4: updates of the context are applied in call order *)

(** At every moment the object is the initial object with a prefix of the
    chained updates merged in call order, and the rest is still queued, in
    call order. *)
Lemma context_run_prefix (actions : list ContextAction) (c0 : Context.t) :
  let c := context_run actions c0 in
  let n := (Context.applied c - Context.applied c0)%nat in
  (Context.applied c0 <= Context.applied c)%nat /\
  (n <= length (Context.queued c0 ++ issued actions))%nat /\
  Context.object c =
    foldl Context.merge (Context.object c0)
      (take n (Context.queued c0 ++ issued actions)) /\
  Context.queued c = drop n (Context.queued c0 ++ issued actions).
Proof.
  induction actions as [|a actions IH] using rev_ind.
  - simpl. rewrite Nat.sub_diag, app_nil_r. simpl. rewrite drop_0.
    repeat split; lia || done.
  - unfold context_run in *. rewrite foldl_snoc.
    set (c := foldl context_step c0 actions) in *.
    simpl in IH. destruct IH as (Hle & Hlen & Hobj & Hq).
    assert (issued (actions ++ [a]) = issued actions ++
              match a with CallUpdate u => [u] | CallbackRun => [] end) as ->.
    { clear. induction actions as [|[u|] actions IH]; simpl; [by destruct a|..];
        by rewrite IH. }
    destruct a as [u|]; simpl.
    + split; [done|]. rewrite app_assoc.
      split; [rewrite length_app; lia|].
      rewrite take_app_le, drop_app_le by done. by rewrite <- Hq.
    + rewrite app_nil_r. unfold Context.run_callback.
      destruct (Context.queued c) as [|u rest] eqn:Hqc; simpl.
      { by rewrite Hqc. }
      split; [lia|].
      replace (S (Context.applied c) - Context.applied c0)%nat
        with (S (Context.applied c - Context.applied c0)) by lia.
      set (n := (Context.applied c - Context.applied c0)%nat) in *.
      set (l := Context.queued c0 ++ issued actions) in *.
      assert (l !! n = Some u) as Hn.
      { rewrite <- (Nat.add_0_r n), <- lookup_drop, <- Hq. done. }
      split; [apply lookup_lt_Some in Hn; lia|]. split.
      * rewrite (take_S_r _ _ _ Hn), foldl_snoc. by rewrite Hobj.
      * replace (S n) with (n + 1)%nat by lia.
        rewrite <- drop_drop, <- Hq. done.
Qed.

Lemma context_drain_spec (c : Context.t) :
  Context.queued (context_drain c) = [] /\
  Context.object (context_drain c) =
    foldl Context.merge (Context.object c) (Context.queued c) /\
  Context.applied (context_drain c) =
    (Context.applied c + length (Context.queued c))%nat.
Proof.
  unfold context_drain, context_run.
  remember (Context.queued c) as q eqn:Hq. revert c Hq.
  induction q as [|u q IH]; intros c Hq; simpl.
  - repeat split; auto.
  - unfold Context.run_callback. rewrite <- Hq. simpl.
    destruct (IH {| Context.object := Context.merge (Context.object c) u;
                    Context.queued := q;
                    Context.applied := S (Context.applied c) |} eq_refl)
      as (H1 & H2 & H3).
    simpl in *. repeat split; [done..|lia].
Qed.

Lemma foldl_merge_lookup_None (us : list Ctx) (o : Ctx) (k : string) :
  Forall (fun u => u !! k = None) us ->
  foldl Context.merge o us !! k = o !! k.
Proof.
  revert o. induction us as [|u us IH]; intros o Hus; simpl; [done|].
  apply Forall_cons in Hus as [Hu Hus]. rewrite IH by done.
  unfold Context.merge. by rewrite lookup_union_r.
Qed.

Lemma foldl_merge_lookup_Some (us : list Ctx) (o u : Ctx) (k : string) (v : jsval) :
  pairwise_distinct_keys us ->
  u ∈ us -> u !! k = Some v ->
  foldl Context.merge o us !! k = Some v.
Proof.
  revert o. induction us as [|u0 us IH]; intros o Hpd Hin Hk; [by inversion Hin|].
  destruct Hpd as [Hdisj Hpd]. simpl.
  apply elem_of_cons in Hin as [->|Hin]; [|by apply IH].
  rewrite foldl_merge_lookup_None.
  - unfold Context.merge. by rewrite (lookup_union_Some_l _ _ _ _ Hk).
  - eapply Forall_impl; [exact Hdisj|]. simpl. intros u' Hu'.
    by eapply map_disjoint_Some_l.
Qed.

(** C4. Callers call [update] in any order, interleaved in any way with the
    runs of the chained callbacks (the merges already chained on the context
    count as called before). At every moment the object is the initial
    object with a prefix of the updates merged one after the other in call
    order, and the rest waits in call order. Once the event loop has run the
    callbacks that remain, every update has been merged, in call order,
    every returned promise is resolved, and, the keys of the updates being
    pairwise distinct, the context value holds every key/value pair of every
    update. *)
Theorem update_no_lost_update (c0 : Context.t) (actions : list ContextAction) :
  pairwise_distinct_keys (issued actions) ->
  (exists n,
     Context.object (context_run actions c0) =
       foldl Context.merge (Context.object c0)
         (take n (Context.queued c0 ++ issued actions)) /\
     Context.queued (context_run actions c0)
       = drop n (Context.queued c0 ++ issued actions)) /\
  let c := context_drain (context_run actions c0) in
  Context.queued c = [] /\
  Context.applied c =
    (Context.applied c0 + length (Context.queued c0 ++ issued actions))%nat /\
  Context.value c =
    foldl Context.merge (Context.object c0) (Context.queued c0 ++ issued actions) /\
  forall u k v,
    u ∈ issued actions -> u !! k = Some v -> Context.value c !! k = Some v.
Proof.
  intros Hpd.
  pose proof (context_run_prefix actions c0) as Hrun. simpl in Hrun.
  destruct Hrun as (Hle & Hlen & Hobj & Hq).
  split; [eauto|]. simpl.
  destruct (context_drain_spec (context_run actions c0)) as (Hd1 & Hd2 & Hd3).
  assert (Context.value (context_drain (context_run actions c0)) =
          foldl Context.merge (Context.object c0)
            (Context.queued c0 ++ issued actions)) as Hval.
  { unfold Context.value. rewrite Hd2, Hobj, Hq, <- foldl_app.
    by rewrite take_drop. }
  repeat split; [done| |done|].
  - rewrite Hd3, Hq, length_drop. lia.
  - intros u k v Hu Hk. rewrite Hval, foldl_app.
    by eapply foldl_merge_lookup_Some.
Qed.

Lemma update_no_lost_update_witness :
  (exists n,
     Context.object (context_run three_updates (Context.new JUndefined)) =
       foldl Context.merge (Context.object (Context.new JUndefined))
         (take n (Context.queued (Context.new JUndefined) ++ issued three_updates)) /\
     Context.queued (context_run three_updates (Context.new JUndefined))
       = drop n (Context.queued (Context.new JUndefined) ++ issued three_updates)) /\
  let c := context_drain (context_run three_updates (Context.new JUndefined)) in
  Context.queued c = [] /\
  Context.applied c =
    (Context.applied (Context.new JUndefined)
     + length (Context.queued (Context.new JUndefined) ++ issued three_updates))%nat /\
  Context.value c =
    foldl Context.merge (Context.object (Context.new JUndefined))
      (Context.queued (Context.new JUndefined) ++ issued three_updates) /\
  forall u k v,
    u ∈ issued three_updates -> u !! k = Some v -> Context.value c !! k = Some v.
Proof.
  apply (update_no_lost_update (Context.new JUndefined) three_updates).
  simpl. repeat split; repeat constructor;
    by apply map_disjoint_singleton_l, lookup_singleton_ne.
Defined.

(** ** The run of a graph *)

(** *** Sets in insertion order *)

Lemma elem_of_Set_add l x y : y ∈ Set_add l x <-> y ∈ l \/ y = x.
Proof.
  unfold Set_add. case_decide.
  - split; [by left|]. by intros [?| ->].
  - rewrite elem_of_app, list_elem_of_singleton. done.
Qed.

Lemma NoDup_Set_add l x : NoDup l -> NoDup (Set_add l x).
Proof.
  intros Hnd. unfold Set_add. case_decide; [done|].
  apply NoDup_app. split; [done|]. split; [|apply NoDup_singleton].
  intros y Hy Hy'. apply list_elem_of_singleton in Hy'. by subst.
Qed.

Lemma elem_of_Set_delete l x y : y ∈ Set_delete l x <-> y ∈ l /\ y ≠ x.
Proof. unfold Set_delete. rewrite list_elem_of_filter. tauto. Qed.

Lemma NoDup_Set_delete l x : NoDup l -> NoDup (Set_delete l x).
Proof. apply NoDup_filter. Qed.

Lemma Set_of_list_spec l :
  NoDup (Set_of_list l) /\ forall x, x ∈ Set_of_list l <-> x ∈ l.
Proof.
  unfold Set_of_list.
  assert (forall acc, NoDup acc ->
    NoDup (foldl Set_add acc l) /\
    forall x, x ∈ foldl Set_add acc l <-> x ∈ acc \/ x ∈ l) as H.
  { induction l as [|y l IH]; intros acc Hacc; simpl.
    - split; [done|]. intros x. split; [by left|]. intros [?|Hx]; [done|inversion Hx].
    - destruct (IH (Set_add acc y) (NoDup_Set_add _ _ Hacc)) as [Hnd Hel].
      split; [done|]. intros x. rewrite Hel, elem_of_Set_add, elem_of_cons. tauto. }
  destruct (H [] (NoDup_nil_2)) as [Hnd Hel]. split; [done|].
  intros x. rewrite Hel. split; [intros [Hx|?]; [inversion Hx|done] | by right].
Qed.

(** *** The task objects during a run *)

Lemma same_task_refl t : same_task t t.
Proof. unfold same_task. by destruct t. Qed.

Lemma same_task_set_status t0 t st : same_task t0 t -> same_task t0 (Task.set_status st t).
Proof. unfold same_task. intros ->. done. Qed.


Lemma tasks_like_refl ts : tasks_like ts ts.
Proof.
  unfold tasks_like. induction ts as [|x ts IH]; constructor; [|done].
  split; [done|apply same_task_refl].
Qed.

Lemma tasks_like_keys ts0 ts : tasks_like ts0 ts -> Map_keys ts = Map_keys ts0.
Proof.
  unfold tasks_like, Map_keys. induction 1 as [|x0 x ts0 ts [Hk _] _ IH]; [done|].
  rewrite !fmap_cons. congruence.
Qed.

Lemma tasks_like_get ts0 ts x :
  tasks_like ts0 ts ->
  match Map_get ts0 x, Map_get ts x with
  | Some t0, Some t => same_task t0 t
  | None, None => True
  | _, _ => False
  end.
Proof.
  unfold tasks_like. induction 1 as [|[k0 t0] [k t] ts0 ts [Hk Hs] _ IH]; simpl; [done|].
  simpl in Hk, Hs. subst k0. by destruct (decide (k = x)).
Qed.

Lemma tasks_like_get_Some ts0 ts x t :
  tasks_like ts0 ts -> Map_get ts x = Some t ->
  exists t0, Map_get ts0 x = Some t0 /\ same_task t0 t.
Proof.
  intros Hlike Hget. pose proof (tasks_like_get ts0 ts x Hlike) as H.
  rewrite Hget in H. destruct (Map_get ts0 x) as [t0|]; [eauto|done].
Qed.

Lemma tasks_like_get_Some_0 ts0 ts x t0 :
  tasks_like ts0 ts -> Map_get ts0 x = Some t0 ->
  exists t, Map_get ts x = Some t /\ same_task t0 t.
Proof.
  intros Hlike Hget. pose proof (tasks_like_get ts0 ts x Hlike) as H.
  rewrite Hget in H. destruct (Map_get ts x) as [t|]; [eauto|done].
Qed.

Lemma tasks_like_set ts0 ts x t0 t' :
  tasks_like ts0 ts -> Map_get ts0 x = Some t0 -> same_task t0 t' ->
  tasks_like ts0 (Map_set ts x t').
Proof.
  unfold tasks_like. intros Hlike. revert t0.
  induction Hlike as [|[k0 u0] [k u] ts0 ts [Hk Hs] Htl IH]; intros t0 Hget Hsame;
    simpl in *; [done|].
  subst k0. destruct (decide (k = x)) as [->|Hne].
  - simplify_eq. by constructor.
  - constructor; [done|]. eapply IH; eauto.
Qed.


(** *** [Task.run] at its [await]s *)

Lemma set_status_self (t : Task.t) : t = Task.set_status (Task._status t) t.
Proof. by destruct t. Qed.

Lemma enter_spec attempt t deps c effects t' pc :
  Task.enter attempt t deps c = (effects, t', pc) ->
  (exists st, t' = Task.set_status st t) /\
  (pc_weight (Z.to_nat (maxRetries (Task._retryPolicy t)))
     (TaskGraphRunner.AwaitTaskRun c pc)
   <= 2 * (Z.to_nat (maxRetries (Task._retryPolicy t)) - attempt) + 8)%nat.
Proof.
  unfold Task.enter. case_match; intros [= <- <- <-]; simpl.
  - split; [eauto | lia].
  - split; [exists (Task._status t); apply set_status_self | lia].
Qed.

Lemma resume_spec pc t deps c effects t' pc' :
  Task.resume pc t deps c = Some (effects, t', pc') ->
  (exists st, t' = Task.set_status st t) /\
  (pc_weight (Z.to_nat (maxRetries (Task._retryPolicy t)))
     (TaskGraphRunner.AwaitTaskRun c pc')
   < pc_weight (Z.to_nat (maxRetries (Task._retryPolicy t)))
       (TaskGraphRunner.AwaitTaskRun c pc))%nat.
Proof.
  destruct pc as [attempt|attempt|error|o]; simpl; [| | |done].
  - destruct (execute (Task.options t) deps c attempt) as [v|err].
    { intros [= <- <- <-]. simpl. split; [eauto | lia]. }
    destruct (template_throws err) as [conversion|].
    { intros [= <- <- <-]. simpl.
      split; [exists (Task._status t); apply set_status_self | lia]. }
    destruct (decide (Z.of_nat attempt = maxRetries (Task._retryPolicy t))) as [Heq|Hne].
    + destruct (errorHandler (Task.options t)); intros [= <- <- <-]; simpl.
      * split; [exists (Task._status t); apply set_status_self | lia].
      * split; [eauto | lia].
    + intros [= <- <- <-]. simpl.
      split; [exists (Task._status t); apply set_status_self | lia].
  - unfold Task.enter.
    destruct (Z.ltb_spec (Z.of_nat (S attempt)) (maxRetries (Task._retryPolicy t) + 1));
      intros [= <- <- <-]; simpl.
    + split; [eauto | lia].
    + split; [exists (Task._status t); apply set_status_self | lia].
  - destruct (Task.handler_rethrows t deps c error); intros [= <- <- <-]; simpl.
    + split; [exists (Task._status t); apply set_status_self | lia].
    + split; [eauto | lia].
Qed.


(** *** The scan for ready tasks *)

Lemma canRun_ext s1 s2 t :
  TaskGraphRunner.tasks s1 = TaskGraphRunner.tasks s2 ->
  TaskGraphRunner.completed s1 = TaskGraphRunner.completed s2 ->
  TaskGraphRunner.canRun s1 t = TaskGraphRunner.canRun s2 t.
Proof. unfold TaskGraphRunner.canRun. by intros -> ->. Qed.

Lemma rescan_fold (l : list (string * Task.t)) : forall s : TaskGraphRunner.RunState,
  let r :=
    foldl
      (fun s' '(id, t) =>
         if bool_decide (id ∉ TaskGraphRunner.completed s')
            && bool_decide (TaskGraphRunner.running s' !! id = None)
         then if TaskGraphRunner.canRun s' t
              then TaskGraphRunner.with_readyTasks s'
                     (Set_add (TaskGraphRunner.readyTasks s') id)
              else s'
         else s')
      s l in
  TaskGraphRunner.tasks r = TaskGraphRunner.tasks s /\
  TaskGraphRunner.ctx r = TaskGraphRunner.ctx s /\
  TaskGraphRunner.completed r = TaskGraphRunner.completed s /\
  TaskGraphRunner.running r = TaskGraphRunner.running s /\
  TaskGraphRunner.main r = TaskGraphRunner.main s /\
  TaskGraphRunner.trace r = TaskGraphRunner.trace s /\
  (NoDup (TaskGraphRunner.readyTasks s) -> NoDup (TaskGraphRunner.readyTasks r)) /\
  (forall x, x ∈ TaskGraphRunner.readyTasks s -> x ∈ TaskGraphRunner.readyTasks r) /\
  (forall x, x ∈ TaskGraphRunner.readyTasks r ->
     x ∈ TaskGraphRunner.readyTasks s \/
     ((x ∉ TaskGraphRunner.completed s) /\
      TaskGraphRunner.running s !! x = None /\
      exists t, (x, t) ∈ l /\ TaskGraphRunner.canRun s t = true)).
Proof.
  induction l as [|[k t] l IH]; intros s; simpl.
  { repeat split; auto. }
  match goal with |- context [foldl _ ?s1 l] => set (s1' := s1) end.
  assert (TaskGraphRunner.tasks s1' = TaskGraphRunner.tasks s /\
          TaskGraphRunner.ctx s1' = TaskGraphRunner.ctx s /\
          TaskGraphRunner.completed s1' = TaskGraphRunner.completed s /\
          TaskGraphRunner.running s1' = TaskGraphRunner.running s /\
          TaskGraphRunner.main s1' = TaskGraphRunner.main s /\
          TaskGraphRunner.trace s1' = TaskGraphRunner.trace s /\
          (NoDup (TaskGraphRunner.readyTasks s) ->
           NoDup (TaskGraphRunner.readyTasks s1')) /\
          (forall x, x ∈ TaskGraphRunner.readyTasks s ->
                     x ∈ TaskGraphRunner.readyTasks s1') /\
          (forall x, x ∈ TaskGraphRunner.readyTasks s1' ->
             x ∈ TaskGraphRunner.readyTasks s \/
             ((x ∉ TaskGraphRunner.completed s) /\
              TaskGraphRunner.running s !! x = None /\
              x = k /\ TaskGraphRunner.canRun s t = true)))
    as (H1 & H2 & H3 & H4 & H5 & H6 & H7 & H8 & H9).
  { subst s1'.
    destruct (bool_decide (k ∉ TaskGraphRunner.completed s)) eqn:Hc; simpl;
      [|repeat split; auto].
    destruct (bool_decide (TaskGraphRunner.running s !! k = None)) eqn:Hr; simpl;
      [|repeat split; auto].
    destruct (TaskGraphRunner.canRun s t) eqn:Hcan; simpl; [|repeat split; auto].
    apply bool_decide_eq_true in Hc, Hr.
    repeat split; auto.
    - apply NoDup_Set_add.
    - intros x Hx. apply elem_of_Set_add. by left.
    - intros x Hx. apply elem_of_Set_add in Hx as [Hx| ->]; [by left|].
      right. auto. }
  destruct (IH s1') as (I1 & I2 & I3 & I4 & I5 & I6 & I7 & I8 & I9).
  repeat split; try congruence; auto.
  intros x Hx. apply I9 in Hx as [Hx|(Hc & Hr & t' & Hin & Hcan)].
  - apply H9 in Hx as [Hx|(Hc & Hr & -> & Hcan)]; [by left|].
    right. repeat split; auto. exists t. split; [left|done].
  - right. rewrite H3 in Hc. rewrite H4 in Hr.
    rewrite (canRun_ext s1' s) in Hcan by done.
    repeat split; auto. exists t'. split; [by right|done].
Qed.

Lemma rescan_spec (s : TaskGraphRunner.RunState) :
  let r := TaskGraphRunner.rescan s in
  TaskGraphRunner.tasks r = TaskGraphRunner.tasks s /\
  TaskGraphRunner.ctx r = TaskGraphRunner.ctx s /\
  TaskGraphRunner.completed r = TaskGraphRunner.completed s /\
  TaskGraphRunner.running r = TaskGraphRunner.running s /\
  TaskGraphRunner.main r = TaskGraphRunner.main s /\
  TaskGraphRunner.trace r = TaskGraphRunner.trace s /\
  (NoDup (TaskGraphRunner.readyTasks s) -> NoDup (TaskGraphRunner.readyTasks r)) /\
  (forall x, x ∈ TaskGraphRunner.readyTasks s -> x ∈ TaskGraphRunner.readyTasks r) /\
  (forall x, x ∈ TaskGraphRunner.readyTasks r ->
     x ∈ TaskGraphRunner.readyTasks s \/
     ((x ∉ TaskGraphRunner.completed s) /\
      TaskGraphRunner.running s !! x = None /\
      exists t, (x, t) ∈ TaskGraphRunner.tasks s /\
                TaskGraphRunner.canRun s t = true)).
Proof. apply rescan_fold. Qed.

(** *** Every event keeps the invariant *)

Section RunInvariant.
Variable this : TaskGraphRunner.t.
Variable s0 : TaskGraphRunner.RunState.

Lemma settle_race_not_waiting m :
  TaskGraphRunner.settle_race m ≠ TaskGraphRunner.AwaitRace false.
Proof. by destruct m as [|[]| |]. Qed.

Lemma finish_inv x s :
  run_inv this s0 s ->
  x ∈ dom (TaskGraphRunner.running s) ->
  (forall ticket,
     TaskGraphRunner.running s !! x = Some (TaskGraphRunner.AwaitUpdate ticket) ->
     (ticket < Context.applied (TaskGraphRunner.ctx s))%nat) ->
  run_inv this s0 (TaskGraphRunner.finish x s).
Proof.
  intros Hinv Hx Hticket. unfold TaskGraphRunner.finish.
  set (s2 := TaskGraphRunner.with_running _ _).
  destruct (rescan_spec s2) as (R1 & R2 & R3 & R4 & R5 & R6 & R7 & R8 & R9).
  simpl in R1, R2, R3, R4, R5, R6, R7, R8, R9.
  assert (forall y, y ∈ TaskGraphRunner.readyTasks (TaskGraphRunner.rescan s2) ->
            y ∈ Map_keys (TaskGraphRunner._tasks this) /\
            (y ∉ dom (TaskGraphRunner.running s) ∖ {[x]}) /\
            (y ∉ ({[x]} ∪ TaskGraphRunner.completed s : gset string))) as Hready.
  { intros y Hy. apply R9 in Hy as [Hy|(Hc & Hr & t & Hin & _)].
    - split; [by eapply inv_ready_keys|].
      pose proof (inv_ready_running _ _ _ Hinv y Hy).
      pose proof (inv_ready_completed _ _ _ Hinv y Hy). set_solver.
    - split.
      + rewrite <- (tasks_like_keys _ _ (inv_tasks _ _ _ Hinv)).
        apply list_elem_of_fmap. by exists (y, t).
      + split; [|done]. apply lookup_delete_None in Hr.
        rewrite elem_of_difference, elem_of_dom, elem_of_singleton.
        intros [[pc Hpc] Hne]. destruct Hr as [->|Hr]; [done|]. congruence. }
  constructor; simpl; rewrite ?R1, ?R2, ?R3, ?R4, ?R5, ?R6; simpl.
  - apply Hinv.
  - apply R7, Hinv.
  - intros y Hy. by apply Hready.
  - intros y. rewrite dom_delete_L. intros Hy. apply (inv_running_keys _ _ _ Hinv).
    set_solver.
  - intros y Hy. apply elem_of_union in Hy as [Hy|Hy].
    + apply elem_of_singleton in Hy as ->. by apply (inv_running_keys _ _ _ Hinv).
    + by apply (inv_completed_keys _ _ _ Hinv).
  - intros y Hy. rewrite dom_delete_L. by apply Hready.
  - intros y Hy. by apply Hready.
  - intros y. rewrite dom_delete_L. intros Hy.
    pose proof (inv_running_completed _ _ _ Hinv y). set_solver.
  - intros y ticket Hy. apply lookup_delete_Some in Hy as [_ Hy].
    by apply (inv_tickets _ _ _ Hinv y).
  - intros i u Hu. destruct (inv_queue _ _ _ Hinv i u Hu) as (y & v & -> & Hy).
    exists y, v. split; [done|]. rewrite lookup_delete_ne; [done|].
    intros <-. apply Hticket in Hy. lia.
  - intros Hm. by apply settle_race_not_waiting in Hm.
  - intros e He. apply (inv_not_rejected _ _ _ Hinv e).
    by destruct (TaskGraphRunner.main s) as [|[]| |].
  - intros c Hc. destruct (TaskGraphRunner.main s) as [|[]|c'|] eqn:Hm; simplify_eq.
    destruct (inv_resolved _ _ _ Hinv _ Hm) as [_ Hempty].
    rewrite Hempty in Hx. set_solver.
  - intros y. rewrite dom_delete_L. intros Hy Hyc.
    apply (inv_untouched _ _ _ Hinv); set_solver.
Qed.


Lemma launch_inv x s :
  run_inv this s0 s ->
  x ∈ TaskGraphRunner.readyTasks s ->
  TaskGraphRunner.main s = TaskGraphRunner.AtLoop \/
    TaskGraphRunner.main s = TaskGraphRunner.AwaitRace true ->
  run_inv this s0 (TaskGraphRunner.launch this s x) /\
  TaskGraphRunner.main (TaskGraphRunner.launch this s x) = TaskGraphRunner.main s /\
  TaskGraphRunner.ctx (TaskGraphRunner.launch this s x) = TaskGraphRunner.ctx s /\
  TaskGraphRunner.completed (TaskGraphRunner.launch this s x)
    = TaskGraphRunner.completed s /\
  (forall y, y ∈ TaskGraphRunner.readyTasks s -> y ≠ x ->
             y ∈ TaskGraphRunner.readyTasks (TaskGraphRunner.launch this s x)).
Proof.
  intros Hinv Hx Hmain. unfold TaskGraphRunner.launch. simpl.
  pose proof (inv_ready_keys _ _ _ Hinv x Hx) as Hkey.
  pose proof (inv_ready_running _ _ _ Hinv x Hx) as Hxr.
  pose proof (inv_ready_completed _ _ _ Hinv x Hx) as Hxc.
  rewrite <- (tasks_like_keys _ _ (inv_tasks _ _ _ Hinv)) in Hkey.
  apply Map_get_is_Some in Hkey as [task Htask]. rewrite Htask.
  destruct (tasks_like_get_Some _ _ _ _ (inv_tasks _ _ _ Hinv) Htask)
    as (t0 & Ht0 & Hsame).
  destruct (Task.start task _ _) as [[effects task'] pc] eqn:Hstart.
  apply enter_spec in Hstart as [[st ->] _].
  split; [|repeat split; simpl; auto].
  2: { intros y Hy Hne. by apply elem_of_Set_delete. }
  constructor; simpl.
  - eapply tasks_like_set; eauto using same_task_set_status, inv_tasks.
  - apply NoDup_Set_delete, Hinv.
  - intros y Hy. apply elem_of_Set_delete in Hy as [Hy _].
    by apply (inv_ready_keys _ _ _ Hinv).
  - intros y. rewrite dom_insert_L. intros Hy.
    apply elem_of_union in Hy as [Hy|Hy].
    + apply elem_of_singleton in Hy as ->. by apply (inv_ready_keys _ _ _ Hinv).
    + by apply (inv_running_keys _ _ _ Hinv).
  - apply Hinv.
  - intros y Hy. apply elem_of_Set_delete in Hy as [Hy Hne].
    rewrite dom_insert_L. pose proof (inv_ready_running _ _ _ Hinv y Hy). set_solver.
  - intros y Hy. apply elem_of_Set_delete in Hy as [Hy Hne].
    by apply (inv_ready_completed _ _ _ Hinv).
  - intros y. rewrite dom_insert_L. intros Hy.
    apply elem_of_union in Hy as [Hy|Hy].
    + by apply elem_of_singleton in Hy as ->.
    + by apply (inv_running_completed _ _ _ Hinv).
  - intros y ticket Hy. apply lookup_insert_Some in Hy as [[_ ?]|[_ Hy]]; [done|].
    by apply (inv_tickets _ _ _ Hinv y).
  - intros i u Hu. destruct (inv_queue _ _ _ Hinv i u Hu) as (y & v & -> & Hy).
    exists y, v. split; [done|]. rewrite lookup_insert_ne; [done|].
    intros <-. apply Hxr, elem_of_dom. eauto.
  - intros Hm. destruct Hmain; congruence.
  - apply Hinv.
  - intros c Hc. destruct Hmain; congruence.
  - intros y. rewrite dom_insert_L. intros Hy Hyc.
    destruct (inv_untouched _ _ _ Hinv y) as (Ht & Ho & Hg); [set_solver|done|].
    split; [|split; [done|]].
    + intros e He. apply elem_of_app in He as [He|He]; [by apply (Ht e)|].
      apply list_elem_of_fmap in He as (e' & [= -> ->] & _). set_solver.
    + rewrite Map_get_set_ne; [done|]. set_solver.
Qed.

Lemma launch_fold_inv l : forall s,
  run_inv this s0 s ->
  TaskGraphRunner.main s = TaskGraphRunner.AtLoop \/
    TaskGraphRunner.main s = TaskGraphRunner.AwaitRace true ->
  NoDup l -> (forall y, y ∈ l -> y ∈ TaskGraphRunner.readyTasks s) ->
  run_inv this s0 (foldl (TaskGraphRunner.launch this) s l) /\
  TaskGraphRunner.main (foldl (TaskGraphRunner.launch this) s l)
    = TaskGraphRunner.main s /\
  TaskGraphRunner.ctx (foldl (TaskGraphRunner.launch this) s l)
    = TaskGraphRunner.ctx s /\
  TaskGraphRunner.completed (foldl (TaskGraphRunner.launch this) s l)
    = TaskGraphRunner.completed s.
Proof.
  induction l as [|x l IH]; intros s Hinv Hmain Hnd Hl; simpl; [done|].
  apply NoDup_cons in Hnd as [Hx Hnd].
  destruct (launch_inv x s Hinv) as (Hinv' & Hm & Hc & Hcomp & Hready);
    [apply Hl; left | done |].
  destruct (IH (TaskGraphRunner.launch this s x)) as (I1 & I2 & I3 & I4); auto.
  - by rewrite Hm.
  - intros y Hy. apply Hready; [apply Hl; by right|]. by intros ->.
  - split; [done|]. split; [congruence|]. split; congruence.
Qed.


Lemma with_main_inv s m :
  run_inv this s0 s ->
  (m = TaskGraphRunner.AwaitRace false -> TaskGraphRunner.running s ≠ ∅) ->
  (forall e, m ≠ TaskGraphRunner.RunRejected e) ->
  (forall c, m = TaskGraphRunner.RunResolved c ->
             c = Context.value (TaskGraphRunner.ctx s) /\
             TaskGraphRunner.running s = ∅) ->
  run_inv this s0 (TaskGraphRunner.with_main s m).
Proof. intros Hinv H1 H2 H3. constructor; simpl; try apply Hinv; done. Qed.

(** When every task is in [completed], none is running. *)
Lemma all_completed_none_running s :
  run_inv this s0 s ->
  ~ (size (TaskGraphRunner.completed s) < Map_size (TaskGraphRunner.tasks s))%nat ->
  TaskGraphRunner.running s = ∅.
Proof.
  intros Hinv Hsize. apply map_empty. intros y.
  destruct (TaskGraphRunner.running s !! y) as [pc|] eqn:Hy; [exfalso|done].
  assert (y ∈ dom (TaskGraphRunner.running s)) as Hdom by (apply elem_of_dom; eauto).
  pose proof (inv_running_keys _ _ _ Hinv y Hdom) as Hkey.
  pose proof (inv_running_completed _ _ _ Hinv y Hdom) as Hnc.
  set (K := list_to_set (Map_keys (TaskGraphRunner._tasks this)) : gset string).
  assert (TaskGraphRunner.completed s ⊂ K) as Hsub.
  { split.
    - intros z Hz. apply elem_of_list_to_set. by apply (inv_completed_keys _ _ _ Hinv).
    - intros Hsub. apply Hnc, Hsub. by apply elem_of_list_to_set. }
  apply subset_size in Hsub.
  pose proof (size_list_to_set_le (Map_keys (TaskGraphRunner._tasks this))) as Hle.
  pose proof (tasks_like_keys _ _ (inv_tasks _ _ _ Hinv)) as Hkeys.
  apply (f_equal length) in Hkeys.
  assert (forall l : list (string * Task.t), length (Map_keys l) = length l) as Hlen
    by (intros l; unfold Map_keys; apply length_fmap).
  rewrite !Hlen in Hkeys. rewrite Hlen in Hle.
  unfold Map_size in Hsize. subst K. lia.
Qed.

Lemma main_loop_inv s :
  run_inv this s0 s ->
  TaskGraphRunner.main s = TaskGraphRunner.AtLoop \/
    TaskGraphRunner.main s = TaskGraphRunner.AwaitRace true ->
  run_inv this s0 (TaskGraphRunner.main_loop this s).
Proof.
  intros Hinv Hmain. unfold TaskGraphRunner.main_loop.
  destruct (decide (size (TaskGraphRunner.completed s)
                    < Map_size (TaskGraphRunner.tasks s))%nat) as [Hlt|Hge].
  - destruct (launch_fold_inv (TaskGraphRunner.readyTasks s) s Hinv Hmain)
      as (Hinv1 & Hm1 & Hc1 & Hcomp1); [apply Hinv | done |].
    set (s1 := foldl _ _ _) in *.
    assert (forall e, TaskGraphRunner.main s1 ≠ TaskGraphRunner.RunRejected e) as Hnr
      by apply Hinv1.
    assert (run_inv this s0
              (if decide (0 < size (TaskGraphRunner.running s1))%nat
               then TaskGraphRunner.with_main s1 (TaskGraphRunner.AwaitRace false)
               else TaskGraphRunner.with_main s1
                      (TaskGraphRunner.RunResolved
                         (Context.value (TaskGraphRunner.ctx s1))))) as Hres.
    { case_decide as Hsz.
      - apply with_main_inv; [done| |done|done].
        intros _ Hempty. rewrite Hempty, map_size_empty in Hsz. lia.
      - apply with_main_inv; [done|done|done|].
        intros c [= <-]. split; [done|]. apply map_size_empty_inv. lia. }
    destruct (TaskGraphRunner.main s1) eqn:Hms1; done.
  - apply with_main_inv; [done|done|done|].
    intros c [= <-]. split; [done|]. by apply all_completed_none_running.
Qed.

Lemma task_resumes_inv x s c pc task effects task' pc' :
  run_inv this s0 s ->
  TaskGraphRunner.running s !! x = Some (TaskGraphRunner.AwaitTaskRun c pc) ->
  Map_get (TaskGraphRunner.tasks s) x = Some task ->
  Task.resume pc task (TaskGraphRunner._dependencies this) c
    = Some (effects, task', pc') ->
  run_inv this s0
    (TaskGraphRunner.with_trace
       (TaskGraphRunner.with_running
          (TaskGraphRunner.with_tasks s
             (Map_set (TaskGraphRunner.tasks s) x task'))
          (<[x := TaskGraphRunner.AwaitTaskRun c pc']> (TaskGraphRunner.running s)))
       (TaskGraphRunner.trace s ++ (pair x <$> effects))).
Proof.
  intros Hinv Hx Htask Hresume.
  apply resume_spec in Hresume as [[st ->] _].
  destruct (tasks_like_get_Some _ _ _ _ (inv_tasks _ _ _ Hinv) Htask)
    as (t0 & Ht0 & Hsame).
  assert (x ∈ dom (TaskGraphRunner.running s)) as Hdom by (apply elem_of_dom; eauto).
  assert (dom (<[x := TaskGraphRunner.AwaitTaskRun c pc']> (TaskGraphRunner.running s))
          = dom (TaskGraphRunner.running s)) as Hdom'.
  { rewrite dom_insert_L. set_solver. }
  constructor; simpl; rewrite ?Hdom'; try apply Hinv.
  - eapply tasks_like_set;
      [apply Hinv | exact Ht0 | by apply same_task_set_status].
  - intros y ticket Hy. apply lookup_insert_Some in Hy as [[_ ?]|[_ Hy]]; [done|].
    by apply (inv_tickets _ _ _ Hinv y).
  - intros i u Hu. destruct (inv_queue _ _ _ Hinv i u Hu) as (y & v & -> & Hy).
    exists y, v. split; [done|]. rewrite lookup_insert_ne; [done|]. congruence.
  - intros _ Hempty. by apply insert_non_empty in Hempty.
  - intros c' Hc'. destruct (inv_resolved _ _ _ Hinv _ Hc') as [_ Hempty].
    rewrite Hempty in Hdom. set_solver.
  - intros y Hy Hyc.
    destruct (inv_untouched _ _ _ Hinv y Hy Hyc) as (Ht & Ho & Hg).
    split; [|split; [done|]].
    + intros e He. apply elem_of_app in He as [He|He]; [by apply (Ht e)|].
      apply list_elem_of_fmap in He as (e' & [= -> ->] & _). done.
    + rewrite Map_get_set_ne; [done|]. by intros <-.
Qed.

Lemma update_inv x s c v :
  run_inv this s0 s ->
  TaskGraphRunner.running s !! x
    = Some (TaskGraphRunner.AwaitTaskRun c (Task.Settled (Returned v))) ->
  run_inv this s0
    (TaskGraphRunner.with_running
       (TaskGraphRunner.with_ctx s
          (fst (Context.update (TaskGraphRunner.ctx s) {[ x := v ]})))
       (<[x := TaskGraphRunner.AwaitUpdate
                 (snd (Context.update (TaskGraphRunner.ctx s) {[ x := v ]}))]>
          (TaskGraphRunner.running s))).
Proof.
  intros Hinv Hx.
  assert (x ∈ dom (TaskGraphRunner.running s)) as Hdom by (apply elem_of_dom; eauto).
  match goal with |- context [dom ?m] => idtac | _ => idtac end.
  assert (forall pc, dom (<[x := pc]> (TaskGraphRunner.running s))
          = dom (TaskGraphRunner.running s)) as Hdom'.
  { intros pc. rewrite dom_insert_L. set_solver. }
  constructor; simpl; rewrite ?Hdom', ?length_app; simpl; try apply Hinv.
  - intros y ticket Hy. apply lookup_insert_Some in Hy as [[_ [= <-]]|[_ Hy]]; [lia|].
    pose proof (inv_tickets _ _ _ Hinv y ticket Hy). lia.
  - intros i u Hu. apply lookup_app_Some in Hu as [Hu|[Hlen Hu]].
    + destruct (inv_queue _ _ _ Hinv i u Hu) as (y & w & -> & Hy).
      exists y, w. split; [done|]. rewrite lookup_insert_ne; [done|]. congruence.
    + apply list_lookup_singleton_Some in Hu as [Hi <-].
      exists x, v. split; [done|]. rewrite lookup_insert_eq. do 2 f_equal. lia.
  - intros _ Hempty. by apply insert_non_empty in Hempty.
  - intros c' Hc'. destruct (inv_resolved _ _ _ Hinv _ Hc') as [_ Hempty].
    rewrite Hempty in Hdom. set_solver.
Qed.

Lemma callback_inv s c' :
  run_inv this s0 s ->
  Context.run_callback (TaskGraphRunner.ctx s) = Some c' ->
  run_inv this s0 (TaskGraphRunner.with_ctx s c').
Proof.
  intros Hinv Hcb. unfold Context.run_callback in Hcb.
  destruct (Context.queued (TaskGraphRunner.ctx s)) as [|u rest] eqn:Hq; [done|].
  simplify_eq.
  destruct (inv_queue _ _ _ Hinv 0%nat u) as (x0 & v0 & -> & Hx0);
    [by rewrite Hq|].
  constructor; simpl; try apply Hinv.
  - intros y ticket Hy. pose proof (inv_tickets _ _ _ Hinv y ticket Hy) as Hlt.
    rewrite Hq in Hlt. simpl in Hlt. lia.
  - intros i u Hu. destruct (inv_queue _ _ _ Hinv (S i) u) as (y & w & -> & Hy).
    { by rewrite Hq. }
    exists y, w. split; [done|]. rewrite Hy. do 2 f_equal. lia.
  - intros c Hc. destruct (inv_resolved _ _ _ Hinv _ Hc) as [_ Hempty].
    by rewrite Hempty in Hx0.
  - intros y Hy Hyc.
    destruct (inv_untouched _ _ _ Hinv y Hy Hyc) as (Ht & Ho & Hg).
    split; [done|]. split; [|done]. rewrite <- Ho.
    unfold Context.merge. apply lookup_union_r. apply lookup_singleton_ne.
    intros <-. apply Hy, elem_of_dom. eauto.
Qed.

(** Every event keeps the invariant. *)
Lemma step_inv ev s s' :
  run_inv this s0 s -> TaskGraphRunner.step this ev s = Some s' ->
  run_inv this s0 s'.
Proof.
  intros Hinv. destruct ev as [|x|x|]; simpl.
  - destruct (TaskGraphRunner.main s) as [|[]| |] eqn:Hm; intros [= <-];
      apply main_loop_inv; auto.
  - destruct (TaskGraphRunner.running s !! x) as [[c pc|ticket]|] eqn:Hx; try done.
    destruct (Map_get (TaskGraphRunner.tasks s) x) as [task|] eqn:Htask; [|done].
    destruct (Task.resume pc task _ c) as [[[effects task'] pc']|] eqn:Hres; [|done].
    intros [= <-]. by eapply task_resumes_inv.
  - destruct (TaskGraphRunner.running s !! x) as [[c pc|ticket]|] eqn:Hx; try done.
    + destruct pc as [| | |[v|e]]; try done; intros [= <-].
      * by eapply update_inv.
      * apply finish_inv; [done|apply elem_of_dom; eauto|]. intros ticket. congruence.
    + unfold Context.resolved. case_bool_decide as Hlt; [|done]. intros [= <-].
      apply finish_inv; [done|apply elem_of_dom; eauto|]. intros ticket'. congruence.
  - destruct (Context.run_callback _) as [c'|] eqn:Hcb; [|done]. intros [= <-].
    by apply callback_inv.
Qed.

End RunInvariant.

(** *** The start of a run *)

Lemma without_dependencies_spec tasks order l :
  TaskGraphRunner.without_dependencies tasks order = Ok l ->
  forall x, x ∈ l ->
    exists t, Map_get tasks x = Some t /\ Task._dependencies t = [].
Proof.
  revert l. induction order as [|y order IH]; intros l; simpl.
  - intros [= <-] x Hx. inversion Hx.
  - destruct (Map_get tasks y) as [t|] eqn:Hy; [|done].
    destruct (TaskGraphRunner.without_dependencies tasks order) as [l'| |]; try done.
    intros [= <-] x Hx. case_decide as Hlen.
    + apply elem_of_cons in Hx as [->|Hx]; [|by apply (IH l')].
      exists t. split; [done|]. by destruct (Task._dependencies t).
    + by apply (IH l').
Qed.

Lemma start_inv (this : TaskGraphRunner.t) (s0 : TaskGraphRunner.RunState) :
  Context.queued (TaskGraphRunner.context this) = [] ->
  TaskGraphRunner.start this = Ok s0 ->
  run_inv this s0 s0.
Proof.
  intros Hq. unfold TaskGraphRunner.start. case_decide; [done|].
  destruct (TaskGraphRunner.seed_value _) as [value| |]; try done.
  destruct (TaskGraphRunner.without_dependencies _ _) as [l| |] eqn:Hl; try done.
  intros [= <-]. destruct (Set_of_list_spec l) as [Hnd Hel].
  constructor; simpl; try done.
  - apply tasks_like_refl.
  - intros x Hx. apply Hel in Hx.
    destruct (without_dependencies_spec _ _ _ Hl x Hx) as (t & Ht & _).
    apply Map_get_is_Some. eauto.
  - intros i u. by rewrite Hq.
  - intros x _ _. split; [|done]. intros e He. inversion He.
Qed.

Lemma exec_inv (this : TaskGraphRunner.t) (s0 : TaskGraphRunner.RunState) evs :
  forall s s',
    run_inv this s0 s -> TaskGraphRunner.exec this evs s = Some s' ->
    run_inv this s0 s'.
Proof.
  induction evs as [|ev evs IH]; intros s s' Hinv; simpl.
  - by intros [= <-].
  - destruct (TaskGraphRunner.step this ev s) as [s1|] eqn:Hstep; [|done].
    apply IH. by eapply step_inv.
Qed.


(** *** A dependent of a task that has not succeeded stays blocked *)

Section Blocked.
Variable this : TaskGraphRunner.t.
Variable s0 : TaskGraphRunner.RunState.
Variables (A B : string) (tB : Task.t).
Hypothesis Hnd : NoDup (Map_keys (TaskGraphRunner._tasks this)).
Hypothesis HB : Map_get (TaskGraphRunner._tasks this) B = Some tB.
Hypothesis HAB : A ∈ Task._dependencies tB.







End Blocked.

(** *** Every event uses up some of the measure *)




Section RunMeasure.
Variable this : TaskGraphRunner.t.
Variable s0 : TaskGraphRunner.RunState.
Hypothesis Hnd : NoDup (Map_keys (TaskGraphRunner._tasks this)).






End RunMeasure.

(** *** A run that has not resolved can go on *)



(** Nothing of a task that was never launched is in the trace, in the
    context or on the task. In particular, when no task is named "initial",
    the key "initial" keeps the value it got from the seed. *)
Lemma never_launched_untouched (this : TaskGraphRunner.t)
    (s0 : TaskGraphRunner.RunState) evs s x :
  Context.queued (TaskGraphRunner.context this) = [] ->
  TaskGraphRunner.start this = Ok s0 ->
  TaskGraphRunner.exec this evs s0 = Some s ->
  x ∉ dom (TaskGraphRunner.running s) -> x ∉ TaskGraphRunner.completed s ->
  (forall e, (x, e) ∉ TaskGraphRunner.trace s) /\
  Context.value (TaskGraphRunner.ctx s) !! x
    = Context.value (TaskGraphRunner.ctx s0) !! x /\
  Map_get (TaskGraphRunner.tasks s) x = Map_get (TaskGraphRunner._tasks this) x.
Proof.
  intros Hq Hstart Hexec Hr Hc.
  pose proof (exec_inv this s0 evs s0 s (start_inv this s0 Hq Hstart) Hexec) as Hinv.
  destruct (inv_untouched _ _ _ Hinv x Hr Hc) as (Ht & Ho & Hg).
  split; [done|]. split; [done|]. rewrite Hg.
  revert Hstart. unfold TaskGraphRunner.start. repeat case_match; try done.
  by intros [= <-].
Qed.

Lemma initial_key_kept (this : TaskGraphRunner.t)
    (s0 : TaskGraphRunner.RunState) evs s :
  Context.queued (TaskGraphRunner.context this) = [] ->
  TaskGraphRunner.start this = Ok s0 ->
  TaskGraphRunner.exec this evs s0 = Some s ->
  "initial" ∉ Map_keys (TaskGraphRunner._tasks this) ->
  Context.value (TaskGraphRunner.ctx s) !! "initial"
    = Context.value (TaskGraphRunner.ctx s0) !! "initial".
Proof.
  intros Hq Hstart Hexec Hkey.
  pose proof (exec_inv this s0 evs s0 s (start_inv this s0 Hq Hstart) Hexec) as Hinv.
  eapply never_launched_untouched; eauto.
  - intros Hin. by apply Hkey, (inv_running_keys _ _ _ Hinv).
  - intros Hin. by apply Hkey, (inv_completed_keys _ _ _ Hinv).
Qed.


(** ** C2: the dependent of a failed task *)




(** ** C5: the reserved key "initial" *)

(** C5, at the failing input: [addTask] accepts a task named "initial" and
    [build] succeeds; the run starts with the seed under "initial" and ends
    with the result of the task there. *)
Lemma task_named_initial_overwrites_seed :
  snd (TaskGraphBuilder.addTask count_builder
         (task_options "initial" (returns (JNum 1)) [])) = Ok () /\
  (exists r, snd (TaskGraphBuilder.build task_named_initial_builder) = Ok r) /\
  Context.value (TaskGraphRunner.ctx (started (built_runner task_named_initial_builder)))
    !! "initial" = Some (JObj [("count", JNum 0)]) /\
  exists s c,
    TaskGraphRunner.exec (built_runner task_named_initial_builder)
      task_named_initial_schedule
      (started (built_runner task_named_initial_builder)) = Some s /\
    TaskGraphRunner.main s = TaskGraphRunner.RunResolved c /\
    c !! "initial" = Some (JNum 1).
Proof.
  split; [vm_compute; reflexivity|].
  split; [eexists; vm_compute; reflexivity|].
  split; [vm_compute; reflexivity|].
  eexists _, _. split; [vm_compute; reflexivity|].
  split; [vm_compute; reflexivity|]. vm_compute. reflexivity.
Qed.

(** ** C10: a falsy seed *)

(** C10. When the seed is a falsy literal, [run] starts exactly as it does
    for the seed undefined: the context that [reset] builds holds undefined
    under "initial", and so does the context at every later moment of the
    run when no task is named "initial". Conversely, a context that starts
    with anything else under "initial" comes from a truthy literal or from
    a factory. *)
Theorem falsy_seed_is_no_seed (this : TaskGraphRunner.t) (v : jsval) :
  TaskGraphRunner._contextValueOrFactory this = SeedValue v ->
  truthy v = false ->
  TaskGraphRunner.start this
    = TaskGraphRunner.start (runner_with_seed this (SeedValue JUndefined)) /\
  (forall s0, TaskGraphRunner.start this = Ok s0 ->
     Context.value (TaskGraphRunner.ctx s0) = {[ "initial" := JUndefined ]} /\
     forall evs s,
       Context.queued (TaskGraphRunner.context this) = [] ->
       "initial" ∉ Map_keys (TaskGraphRunner._tasks this) ->
       TaskGraphRunner.exec this evs s0 = Some s ->
       Context.value (TaskGraphRunner.ctx s) !! "initial" = Some JUndefined) /\
  (forall that s0,
     TaskGraphRunner.start that = Ok s0 ->
     Context.value (TaskGraphRunner.ctx s0) !! "initial" ≠ Some JUndefined ->
     match TaskGraphRunner._contextValueOrFactory that with
     | SeedValue w => truthy w = true
     | SeedFactory _ => True
     end).
Proof.
  intros Hseed Hfalsy.
  assert (forall s0, TaskGraphRunner.start this = Ok s0 ->
            Context.value (TaskGraphRunner.ctx s0) = {[ "initial" := JUndefined ]})
    as Hstart.
  { intros s0. unfold TaskGraphRunner.start. rewrite Hseed. simpl. rewrite Hfalsy.
    case_decide; [done|].
    destruct (TaskGraphRunner.without_dependencies _ _); try done.
    by intros [= <-]. }
  split; [|split].
  - unfold TaskGraphRunner.start. rewrite Hseed. simpl. by rewrite Hfalsy.
  - intros s0 Hs0. split; [by apply Hstart|]. intros evs s Hq Hkey Hexec.
    rewrite (initial_key_kept this s0 evs s Hq Hs0 Hexec Hkey), (Hstart s0 Hs0).
    apply lookup_singleton_eq.
  - intros that s0. unfold TaskGraphRunner.start. case_decide; [done|].
    destruct (TaskGraphRunner._contextValueOrFactory that) as [w|o]; [|done].
    simpl. destruct (truthy w) eqn:Hw; [done|]. simpl.
    destruct (TaskGraphRunner.without_dependencies _ _); try done.
    intros [= <-]. simpl. by rewrite lookup_singleton_eq.
Qed.

Lemma falsy_seed_is_no_seed_witness :
  TaskGraphRunner.start
    (runner_with_seed (built_runner two_task_builder) (SeedValue (JNum 0)))
    = TaskGraphRunner.start
        (runner_with_seed
           (runner_with_seed (built_runner two_task_builder) (SeedValue (JNum 0)))
           (SeedValue JUndefined)) /\
  Context.value
    (TaskGraphRunner.ctx
       (started (runner_with_seed (built_runner two_task_builder)
                   (SeedValue (JNum 0)))))
    = {[ "initial" := JUndefined ]}.
Proof.
  destruct (falsy_seed_is_no_seed
              (runner_with_seed (built_runner two_task_builder) (SeedValue (JNum 0)))
              (JNum 0) eq_refl eq_refl) as (Hsame & Hstart & _).
  split; [exact Hsame|].
  apply (Hstart (started (runner_with_seed (built_runner two_task_builder)
                            (SeedValue (JNum 0))))).
  vm_compute. reflexivity.
Defined.
